(** * membench: a shallow embedding of benchmarks/mem/membench.c

    The memory-latency benchmark builds a cyclic chain of cache-line
    sized nodes inside a statically allocated arena and then chases the
    chain.  This file embeds the C functions [prepare], [do_read],
    [do_write], [get_time], [benchmark_thread], the thread-spawning loop
    of [run_benchmark] and the option loop of [main], and states the
    properties of the design document about them.

    Conventions of the embedding
    - [unsigned] is a [Z] reduced by [wrap32], [uint64_t] by [wrap64];
      [int] loop indices never leave [0 .. 2^26] and are plain [Z].
    - A pointer is the address it holds ([Z]): [NULL] is [0], the marker
      [(struct s* )1] is [1], [&array[k]] is [base + 64 * k].  The target
      is LP64 and little-endian (the aarch64 and x86-64 boards the tool
      is built for), so a pointer takes 8 bytes and [dummy] has 14
      entries.
    - An access outside the modelled object is a [Trap]; [exit], [errx]
      and a failed [assert] are [Exited]; a loop whose bound is not
      known statically runs on fuel and yields [OutOfFuel] when it is
      used up. *)

From Stdlib Require Import ZArith Lia Bool SpecFloat Ascii.
From stdpp Require Import base option list numbers sorting strings.

Local Open Scope Z_scope.

(** ** Outcomes *)

Inductive trap : Type :=
| OutOfBounds (where_ : Z)   (* index or address outside the object *)
| Misaligned (address : Z).  (* address that is not the start of a node *)

Inductive outcome (A : Type) : Type :=
| Ok (a : A)
| Trap (t : trap)
| Exited (status : Z)
| OutOfFuel.

Arguments Ok {A} a.
Arguments Trap {A} t.
Arguments Exited {A} status.
Arguments OutOfFuel {A}.

#[global] Instance outcome_ret : MRet outcome := fun _ a => Ok a.
#[global] Instance outcome_bind : MBind outcome := fun _ _ f m =>
  match m with
  | Ok a => f a
  | Trap t => Trap t
  | Exited c => Exited c
  | OutOfFuel => OutOfFuel
  end.

(** [n]-fold Kleisli iteration of a loop body. *)
Fixpoint iterM {St : Type} (n : nat) (body : St -> outcome St) (st : St) : outcome St :=
  match n with
  | O => Ok st
  | S n' => st' ← body st; iterM n' body st'
  end.

(** [for (i = lo; i < hi; i++) body] where the body leaves [i] and [hi]
    alone: the trip count is known on entry. *)
Fixpoint for_count {St : Type} (n : nat) (i : Z) (body : Z -> St -> outcome St) (st : St)
  : outcome St :=
  match n with
  | O => Ok st
  | S n' => st' ← body i st; for_count n' (i + 1) body st'
  end.

Definition for_loop {St : Type} (lo hi : Z) (body : Z -> St -> outcome St) (st : St)
  : outcome St :=
  for_count (Z.to_nat (hi - lo)) lo body st.

(** ** Machine integers *)

Definition wrap32 (z : Z) : Z := z mod 2 ^ 32.
Definition wrap64 (z : Z) : Z := z mod 2 ^ 64.

(** ** struct s and the arena *)

Definition CACHELINE : Z := 64.          (* sizeof(struct s), static_assert *)
Definition PTR_SIZE : Z := 8.            (* sizeof(struct s* ) *)
Definition DUMMY_LEN : Z := 14.          (* ARRAY_SIZE(s.dummy) = (64 - 8) / 4 *)
Definition MAX_CPUS : Z := 8.
Definition NULL : Z := 0.
Definition MARK : Z := 1.                (* (struct s* )1 *)

Record struct_s : Type := { ptr : Z; dummy : list Z }.

(** One row [array[cpu]] of the global [array]: its address and its
    nodes. *)
Record arena : Type := { base : Z; cells : list struct_s }.

Definition capacity (a : arena) : Z := Z.of_nat (length (cells a)).

(** [&array[k]] *)
Definition addr (a : arena) (k : Z) : Z := base a + CACHELINE * k.

(** The node an address designates, when it is the start of a node of
    the arena. *)
Definition cell_index (a : arena) (p : Z) : outcome nat :=
  let off := p - base a in
  if negb (off mod CACHELINE =? 0) then Trap (Misaligned p)
  else if (0 <=? off) && (off / CACHELINE <? capacity a)
       then Ok (Z.to_nat (off / CACHELINE))
       else Trap (OutOfBounds p).

Definition load (a : arena) (p : Z) : outcome struct_s :=
  k ← cell_index a p;
  match cells a !! k with
  | Some c => Ok c
  | None => Trap (OutOfBounds p)
  end.

(** [p->ptr] read *)
Definition load_ptr (a : arena) (p : Z) : outcome Z :=
  c ← load a p; Ok (ptr c).

(** [p->ptr = v] *)
Definition store_ptr (a : arena) (p v : Z) : outcome arena :=
  k ← cell_index a p;
  match cells a !! k with
  | Some c => Ok {| base := base a;
                    cells := <[k := {| ptr := v; dummy := dummy c |}]> (cells a) |}
  | None => Trap (OutOfBounds p)
  end.

(** [x++] on a [uint32_t] *)
Definition incr32 (d : Z) : Z := wrap32 (d + 1).

(** [p->dummy[ofs]++] *)
Definition incr_dummy (a : arena) (p ofs : Z) : outcome arena :=
  k ← cell_index a p;
  match cells a !! k with
  | Some c =>
      if (0 <=? ofs) && (ofs <? DUMMY_LEN)
      then Ok {| base := base a;
                 cells := <[k := {| ptr := ptr c;
                                    dummy := alter incr32 (Z.to_nat ofs) (dummy c) |}]>
                            (cells a) |}
      else Trap (OutOfBounds ofs)
  | None => Trap (OutOfBounds p)
  end.

(** [memset(array, 0, size)].  The first [n] bytes of a little-endian
    field of [width] bytes are its low-order bytes. *)
Definition zero_low_bytes (n width v : Z) : Z :=
  if n <=? 0 then v
  else if width <=? n then 0
  else Z.shiftl (Z.shiftr v (8 * n)) (8 * n).

Definition memset_node (n : Z) (c : struct_s) : struct_s :=
  {| ptr := zero_low_bytes n PTR_SIZE (ptr c);
     dummy := imap (fun k d => zero_low_bytes (n - PTR_SIZE - 4 * Z.of_nat k) 4 d) (dummy c) |}.

Definition memset0 (a : arena) (size : Z) : outcome arena :=
  if size <=? CACHELINE * capacity a
  then Ok {| base := base a;
             cells := imap (fun k c => memset_node (size - CACHELINE * Z.of_nat k) c) (cells a) |}
  else Trap (OutOfBounds size).

(** ** prepare *)

(** State of the random branch: the arena, the cursor [p], the number of
    [rand()] calls made so far and the indices [j] at which the scan has
    read [array[j].ptr], oldest first (a ghost log: the C code keeps no
    such list). *)
Record prep_state : Type :=
  { ps_arena : arena; ps_p : Z; ps_calls : nat; ps_probes : list Z }.

(** [for (j = ...; array[j].ptr != NULL; j = (j >= count) ? 0 : j+1);] *)
Fixpoint scan (fuel : nat) (a : arena) (count j : Z) (probes : list Z)
  : outcome (Z * list Z) :=
  match fuel with
  | O => OutOfFuel
  | S fuel' =>
      v ← load_ptr a (addr a j);
      if v =? NULL then Ok (j, probes ++ [j])
      else scan fuel' a count (if j >=? count then 0 else j + 1) (probes ++ [j])
  end.

Definition link_random (fuel : nat) (rand : nat -> Z) (count : Z) (_ : Z) (st : prep_state)
  : outcome prep_state :=
  a1 ← store_ptr (ps_arena st) (ps_p st) MARK;
  '(j, probes) ← scan fuel a1 count (Z.rem (rand (ps_calls st)) count) (ps_probes st);
  a2 ← store_ptr a1 (ps_p st) (addr a1 j);
  Ok {| ps_arena := a2; ps_p := addr a1 j; ps_calls := S (ps_calls st); ps_probes := probes |}.

Definition link_sequential (i : Z) (a : arena) : outcome arena :=
  store_ptr a (addr a i) (addr a (i + 1)).

(** What [prepare] leaves behind: the arena, the number of [rand()]
    calls made so far and the probes of the scan. *)
Record prepared : Type :=
  { pr_arena : arena; pr_calls : nat; pr_probes : list Z }.

(** [rand] is the sequence of values [rand()] returns from now on and
    [calls] the number already consumed; [size] is [cfg->size]. *)
Definition prepare (fuel : nat) (rand : nat -> Z) (calls : nat)
    (array : arena) (size : Z) (sequential : bool) : outcome prepared :=
  let count := size / CACHELINE in
  if sequential then
    a1 ← for_loop 0 (count - 1) link_sequential array;
    a2 ← store_ptr a1 (addr a1 (count - 1)) (addr a1 0);
    Ok {| pr_arena := a2; pr_calls := calls; pr_probes := [] |}
  else
    a0 ← memset0 array size;
    st ← for_loop 0 (count - 1) (link_random fuel rand count)
           {| ps_arena := a0; ps_p := addr a0 0; ps_calls := calls; ps_probes := [] |};
    a2 ← store_ptr (ps_arena st) (ps_p st) (addr (ps_arena st) 0);
    Ok {| pr_arena := a2; pr_calls := ps_calls st; pr_probes := ps_probes st |}.

(** ** do_read and do_write *)

(** [unsigned i = n; while (--i) body]: the counter is decremented
    modulo [2^32] before it is tested. *)
Fixpoint while_predec {St : Type} (fuel : nat) (i : Z) (body : St -> outcome St) (st : St)
  : outcome St :=
  match fuel with
  | O => OutOfFuel
  | S fuel' =>
      let i' := wrap32 (i - 1) in
      if i' =? 0 then Ok st
      else st' ← body st; while_predec fuel' i' body st'
  end.

(** The number of times the body of [while (--i)] runs when [i] starts
    at [reads / 32]. *)
Definition batches (reads : Z) : Z := wrap32 (reads / 32 - 1).

(** State of the read loop: the cursor [p] and the addresses it has
    been loaded through, oldest first (a ghost log, one entry for each
    [p = p->ptr]). *)
Definition read_state : Type := Z * list Z.

(** [p = p->ptr;] *)
Definition read_step (a : arena) (st : read_state) : outcome read_state :=
  let '(p, visited) := st in
  v ← load_ptr a p; Ok (v, visited ++ [p]).

(** The 32 unrolled steps of one loop iteration. *)
Definition read_batch (a : arena) : read_state -> outcome read_state :=
  iterM 32 (read_step a).

Definition do_read (fuel : nat) (array : arena) (reads : Z) : outcome read_state :=
  while_predec fuel (reads / 32) (read_batch array) (addr array 0, []).

(** State of the write loop: the arena, the cursor and the ghost log. *)
Definition write_state : Type := arena * Z * list Z.

(** [p->dummy[ofs]++; p = p->ptr;] *)
Definition write_step (ofs : Z) (st : write_state) : outcome write_state :=
  let '(a, p, visited) := st in
  a' ← incr_dummy a p ofs;
  v ← load_ptr a' p;
  Ok (a', v, visited ++ [p]).

Definition write_batch (ofs : Z) : write_state -> outcome write_state :=
  iterM 32 (write_step ofs).

Definition do_write (fuel : nat) (array : arena) (accesses ofs : Z) : outcome write_state :=
  while_predec fuel (accesses / 32) (write_batch ofs) (array, addr array 0, []).

(** Number of pointer-following steps a run has performed. *)
Definition steps (visited : list Z) : Z := Z.of_nat (length visited).

(** ** Configuration and timing *)

Record cfg : Type :=
  { sequential : bool;
    size : Z;            (* unsigned *)
    num_threads : Z;     (* unsigned *)
    read_count : Z;      (* unsigned *)
    cpu_set : Z;         (* cpu_set_t, as the bit mask it is *)
    write : bool;
    ofs : Z;             (* unsigned *)
    use_cycles : bool }.

(** [cpu_set_t] and its macros, as glibc defines them: a mask of
    [CPU_SETSIZE] bits; a CPU number outside the mask is ignored. *)
Definition CPU_SETSIZE : Z := 1024.
Definition CPU_ZERO : Z := 0.
Definition cpu_in_mask (cpu : Z) : bool := (0 <=? cpu) && (cpu <? CPU_SETSIZE).
Definition CPU_SET (cpu set : Z) : Z :=
  if cpu_in_mask cpu then Z.lor set (Z.shiftl 1 cpu) else set.
Definition CPU_CLR (cpu set : Z) : Z :=
  if cpu_in_mask cpu then Z.ldiff set (Z.shiftl 1 cpu) else set.
Definition CPU_ISSET (cpu set : Z) : bool := cpu_in_mask cpu && Z.testbit set cpu.
Definition CPU_COUNT (set : Z) : Z :=
  Z.of_nat (length (filter (fun cpu => CPU_ISSET cpu set = true) (seqZ 0 CPU_SETSIZE))).

(** The build target: [__aarch64__] defined or not. *)
Inductive arch : Type := AArch64 | OtherArch.

(** What the hardware shows at the instant of a call: the monotonic
    clock and, on aarch64, the cycle counter register. *)
Record clock_reading : Type := { tv_sec : Z; tv_nsec : Z; PMCCNTR_EL0 : Z }.

Definition ccntr_get (ar : arch) (h : clock_reading) : Z :=
  match ar with
  | AArch64 => wrap64 (PMCCNTR_EL0 h)
  | OtherArch => 0
  end.

Definition get_time (ar : arch) (c : cfg) (h : clock_reading) : Z :=
  if negb (use_cycles c)
  then wrap64 (wrap64 (tv_sec h) * 1000000000 + tv_nsec h)
  else ccntr_get ar h.

(** ** main: the option loop and the checks that follow it *)

(** One option as [getopt] delivers it, with [atol(optarg)] already
    taken. *)
Inductive option_arg : Type :=
| Opt_c (v : Z) | Opt_C (v : Z) | Opt_h | Opt_o (v : Z) | Opt_r
| Opt_s (v : Z) | Opt_t (v : Z) | Opt_w | Opt_y | Opt_other.

(** [sizeof(array[0])] *)
Definition ARENA_BYTES : Z := 64 * 0x100000.

Definition default_cfg : cfg :=
  {| sequential := true; size := 0; num_threads := 1; read_count := 0x2000000;
     cpu_set := CPU_ZERO; write := false; ofs := 0; use_cycles := false |}.

Definition apply_option (c : cfg) (o : option_arg) : outcome cfg :=
  match o with
  | Opt_c v => Ok {| sequential := sequential c; size := size c; num_threads := num_threads c;
                     read_count := wrap32 v; cpu_set := cpu_set c; write := write c;
                     ofs := ofs c; use_cycles := use_cycles c |}
  | Opt_o v => Ok {| sequential := sequential c; size := size c; num_threads := num_threads c;
                     read_count := read_count c; cpu_set := cpu_set c; write := write c;
                     ofs := wrap32 v; use_cycles := use_cycles c |}
  | Opt_r => Ok {| sequential := false; size := size c; num_threads := num_threads c;
                   read_count := read_count c; cpu_set := cpu_set c; write := write c;
                   ofs := ofs c; use_cycles := use_cycles c |}
  | Opt_s v =>
      if wrap32 v >? ARENA_BYTES then Exited 1
      else Ok {| sequential := sequential c; size := wrap32 v; num_threads := num_threads c;
                 read_count := read_count c; cpu_set := cpu_set c; write := write c;
                 ofs := ofs c; use_cycles := use_cycles c |}
  | Opt_t v => Ok {| sequential := sequential c; size := size c; num_threads := wrap32 v;
                     read_count := read_count c; cpu_set := cpu_set c; write := write c;
                     ofs := ofs c; use_cycles := use_cycles c |}
  | Opt_C v => Ok {| sequential := sequential c; size := size c; num_threads := num_threads c;
                     read_count := read_count c; cpu_set := CPU_SET v (cpu_set c);
                     write := write c; ofs := ofs c; use_cycles := use_cycles c |}
  | Opt_w => Ok {| sequential := sequential c; size := size c; num_threads := num_threads c;
                   read_count := read_count c; cpu_set := cpu_set c; write := true;
                   ofs := ofs c; use_cycles := use_cycles c |}
  | Opt_y => Ok {| sequential := sequential c; size := size c; num_threads := num_threads c;
                   read_count := read_count c; cpu_set := cpu_set c; write := write c;
                   ofs := ofs c; use_cycles := true |}
  | Opt_h => Exited 0
  | Opt_other => Exited 1
  end.

Fixpoint getopt_loop (opts : list option_arg) (c : cfg) : outcome cfg :=
  match opts with
  | [] => Ok c
  | o :: rest => c' ← apply_option c o; getopt_loop rest c'
  end.

(** The configuration [main] hands to [run_benchmark], or the exit it
    takes before: the option loop, then [assert(cfg.ofs <
    ARRAY_SIZE(s.dummy))] in write mode (status 134 stands for the
    abort).  The target [ar] is a parameter although nothing here looks
    at it: no path of [main] tests the architecture. *)
Definition main_config (ar : arch) (opts : list option_arg) : outcome cfg :=
  c ← getopt_loop opts default_cfg;
  if write c && negb (ofs c <? DUMMY_LEN) then Exited 134 else Ok c.

(** ** run_benchmark: the loop that creates the workers *)

(** [struct benchmark_thread thread[MAX_CPUS]], reduced to the [cpu] of
    each slot; [None] is a slot whose [cpu] was never assigned. *)
Definition thread_table : Type := list (option Z).

(** [for (j = 0; j < MAX_CPUS; j++) if (CPU_ISSET(j, &set)) ...] *)
Definition first_cpu (set : Z) : option Z :=
  List.find (fun j => CPU_ISSET j set) (seqZ 0 MAX_CPUS).

(** One iteration: [thread[i].cfg = cfg], the choice of [thread[i].cpu]
    and [pthread_create].  The state also lists the indices of the
    workers created so far. *)
Definition spawn_one (i : Z) (st : thread_table * Z * list Z)
  : outcome (thread_table * Z * list Z) :=
  let '(thread, set, created) := st in
  if (0 <=? i) && (i <? Z.of_nat (length thread)) then
    if CPU_COUNT set =? 0 then Ok (<[Z.to_nat i := Some i]> thread, set, created ++ [i])
    else match first_cpu set with
         | Some j => Ok (<[Z.to_nat i := Some j]> thread, CPU_CLR j set, created ++ [i])
         | None => Ok (thread, set, created ++ [i])
         end
  else Trap (OutOfBounds i).

Definition run_benchmark_spawn (c : cfg) : outcome (thread_table * Z * list Z) :=
  for_loop 0 (num_threads c) spawn_one (replicate (Z.to_nat MAX_CPUS) None, cpu_set c, []).

(** ** benchmark_thread *)

(** [(double)x] for an unsigned integer and [x / y] on [double]:
    IEEE 754 binary64, round to nearest even. *)
Definition to_double (z : Z) : spec_float := binary_normalize 53 1024 z 0 false.
Definition double_div (x y : spec_float) : spec_float := SFdiv 53 1024 x y.

(** What a worker meets: whether [pthread_setaffinity_np] succeeds, the
    values [rand()] returns to it, and the clock at its two [get_time]
    calls. *)
Record worker_env : Type :=
  { affinity_ok : bool; rand : nat -> Z; tic_clock : clock_reading; tac_clock : clock_reading }.

Record worker_run : Type :=
  { w_array : list arena;     (* the global [array] afterwards *)
    w_visited : list Z;       (* ghost log of the traversal *)
    w_tic : Z; w_tac : Z;
    w_result : spec_float }.  (* [me->result] *)

Definition benchmark_thread (fuel : nat) (ar : arch) (env : worker_env) (c : cfg)
    (cpu : Z) (array : list arena) : outcome worker_run :=
  if negb (affinity_ok env) then Exited 1 else
  match array !! Z.to_nat cpu with
  | None => Trap (OutOfBounds cpu)
  | Some a =>
      r ← prepare fuel (rand env) 0 a (size c) (sequential c);
      let tic := get_time ar c (tic_clock env) in
      '(a', visited) ←
        (if negb (write c)
         then '(_, visited) ← do_read fuel (pr_arena r) (read_count c);
              Ok (pr_arena r, visited)
         else '(a', _, visited) ← do_write fuel (pr_arena r) (read_count c) (ofs c);
              Ok (a', visited));
      let tac := get_time ar c (tac_clock env) in
      Ok {| w_array := <[Z.to_nat cpu := a']> array;
            w_visited := visited;
            w_tic := tic; w_tac := tac;
            w_result := double_div (to_double (wrap64 (tac - tic)))
                                   (to_double (read_count c)) |}
  end.

(** ** Predicates and invariants of the properties *)

(** The chain that starts at node 0 closes on node 0: following [ptr]
    [n >= 1] times from [&array[0]] leads back to it, through the nodes
    at the addresses [cycle]. *)
Definition closes (a : arena) (n : nat) (cycle : list Z) : Prop :=
  (0 < n)%nat /\
  iterM n (read_step a) (addr a 0, []) = Ok (addr a 0, cycle).

(** The chain that starts at node 0 is one cycle through exactly the
    first [count] nodes: following [ptr] [count] times from [&array[0]]
    leads back to [&array[0]], through pairwise distinct nodes that all
    lie among the first [count]. *)
Definition single_cycle (a : arena) (count : Z) (visited : list Z) : Prop :=
  iterM (Z.to_nat count) (read_step a) (addr a 0, []) = Ok (addr a 0, visited) /\
  NoDup visited /\
  forall p, p ∈ visited -> exists k, 0 <= k < count /\ p = addr a k.

(** The log of [k] consecutive passes over a cycle. *)
Fixpoint passes (k : nat) (cycle : list Z) : list Z :=
  match k with
  | O => []
  | S k' => cycle ++ passes k' cycle
  end.

(** Every node has its 14 [dummy] words, each a [uint32_t] value. *)
Definition wf_arena (a : arena) : Prop :=
  forall n c, cells a !! n = Some c ->
    length (dummy c) = Z.to_nat DUMMY_LEN /\ Forall (fun d => 0 <= d < 2 ^ 32) (dummy c).

(** Boolean check of [wf_arena], for concrete arenas. *)
Definition wf_arenab (a : arena) : bool :=
  forallb (fun c => (length (dummy c) =? Z.to_nat DUMMY_LEN)%nat
                    && forallb (fun d => (0 <=? d) && (d <? 2 ^ 32)) (dummy c))
          (cells a).

(** Two arenas at the same address whose nodes carry the same [ptr]. *)
Definition same_links (a a' : arena) : Prop :=
  base a' = base a /\ forall n, ptr <$> cells a' !! n = ptr <$> cells a !! n.

(** A node whose word [ofs] of [dummy] has been incremented [k] times. *)
Definition bump_node (ofs : Z) (k : nat) (c : struct_s) : struct_s :=
  {| ptr := ptr c; dummy := alter (Nat.iter k incr32) (Z.to_nat ofs) (dummy c) |}.

(** [a'] is [a] after one increment of word [ofs] for each entry of the
    log [visited], in the node the entry designates. *)
Definition bumped (ofs : Z) (a : arena) (visited : list Z) (a' : arena) : Prop :=
  base a' = base a /\
  length (cells a') = length (cells a) /\
  forall n, cells a' !! n
            = bump_node ofs (count_occ Z.eq_dec visited (addr a (Z.of_nat n))) <$> cells a !! n.

(** What the sequential loop has established when [i] reaches [j]. *)
Definition seq_inv (a0 : arena) (j : Z) (a : arena) : Prop :=
  base a = base a0 /\
  length (cells a) = length (cells a0) /\
  (forall n, dummy <$> cells a !! n = dummy <$> cells a0 !! n) /\
  (forall n, j <= Z.of_nat n -> cells a !! n = cells a0 !! n) /\
  (forall n, Z.of_nat n < j -> ptr <$> cells a !! n = Some (addr a0 (Z.of_nat n + 1))).

(** [chain a ns last]: the [ptr] of each node of [ns] designates the
    node that follows it in [ns], and the [ptr] of the final one is
    [last]. *)
Fixpoint chain (a : arena) (ns : list nat) (last : Z) : Prop :=
  match ns with
  | [] => True
  | n :: rest =>
      ptr <$> cells a !! n
      = Some (match rest with [] => last | m :: _ => addr a (Z.of_nat m) end)
      /\ chain a rest last
  end.

(** What the random loop has established when [i] links are made,
    starting from the arena [a0] that [memset] left: the nodes linked so
    far, in order, are [front] followed by the current node [pn]. *)
Definition rand_inv (a0 : arena) (count : Z) (calls0 : nat) (i : Z) (st : prep_state) : Prop :=
  exists (front : list nat) (pn : nat),
    base (ps_arena st) = base a0 /\
    length (cells (ps_arena st)) = length (cells a0) /\
    Z.of_nat (length front) = i /\
    NoDup (front ++ [pn]) /\
    head (front ++ [pn]) = Some 0%nat /\
    (forall n, n ∈ front ++ [pn] ->
               Z.of_nat n <= count /\
               (Z.of_nat n = count -> ptr <$> cells a0 !! n = Some NULL)) /\
    ps_p st = addr a0 (Z.of_nat pn) /\
    chain (ps_arena st) (front ++ [pn]) NULL /\
    (forall n, n ∉ front ++ [pn] -> cells (ps_arena st) !! n = cells a0 !! n) /\
    ps_calls st = (calls0 + Z.to_nat i)%nat /\
    Forall (fun j => 0 <= j <= count) (ps_probes st).

(** The requirement on cycle-counter mode where the counter cannot be
    read, in the words of the design document: a configuration that
    selects the mode is rejected, or else the timing source does not
    answer with a zero. *)
Definition unsupported_mode_is_explicit (ar : arch) : Prop :=
  forall opts c h,
    main_config ar opts = Ok c -> use_cycles c = true -> get_time ar c h <> 0.

(** ** Concrete inputs *)

(** A fresh arena, as the zero-initialised global is before its first
    use. *)
Definition zero_node : struct_s := {| ptr := 0; dummy := replicate (Z.to_nat DUMMY_LEN) 0 |}.
Definition fresh_arena (b : Z) (n : nat) : arena := {| base := b; cells := replicate n zero_node |}.

(** A [rand()] whose every value is [2]. *)
Definition rand_2 : nat -> Z := fun _ => 2.

(** The global arena before any run: zero-initialised storage, here
    five nodes at a 2 MiB boundary. *)
Definition zeroed5 : arena := fresh_arena 2097152 5.

(** The arena [prepare] returns ([fallback] when it does not return). *)
Definition arena_of (r : outcome prepared) (fallback : arena) : arena :=
  match r with
  | Ok x => pr_arena x
  | _ => fallback
  end.

(** A 2 MiB-aligned arena of five nodes prepared sequentially for a
    working set of 256 bytes (four nodes). *)
Definition seq4 : arena :=
  arena_of (prepare 0 rand_2 0 zeroed5 256 true) (fresh_arena 0 0).

(** The order in which the chain of [seq4] passes its four nodes. *)
Definition seq4_cycle : list Z := [2097152; 2097216; 2097280; 2097344].

(** A worker for which [pthread_setaffinity_np] succeeds, [rand()]
    answers [2] and the monotonic clock advances by 1000 ns between its
    two readings. *)
Definition env_1000ns : worker_env :=
  {| affinity_ok := true; rand := rand_2;
     tic_clock := {| tv_sec := 7; tv_nsec := 500; PMCCNTR_EL0 := 0 |};
     tac_clock := {| tv_sec := 7; tv_nsec := 1500; PMCCNTR_EL0 := 0 |} |}.

(** [-s 256 -c 100] *)
Definition cfg_s256_c100 : cfg :=
  {| sequential := true; size := 256; num_threads := 1; read_count := 100;
     cpu_set := CPU_ZERO; write := false; ofs := 0; use_cycles := false |}.

(** [-t 9 -s 1024] *)
Definition opts_nine_threads : list option_arg := [Opt_t 9; Opt_s 1024].

(** ** main: the runs it starts *)

(** [size = 1 << order; if (step == 1) size += size / 2;] *)
Definition sweep_size (order step : Z) : Z :=
  let size := wrap32 (Z.shiftl 1 order) in
  if step =? 1 then wrap32 (size + size / 2) else size.

(** [cfg.size = size;] *)
Definition with_size (c : cfg) (sz : Z) : cfg :=
  {| sequential := sequential c; size := sz; num_threads := num_threads c;
     read_count := read_count c; cpu_set := cpu_set c; write := write c;
     ofs := ofs c; use_cycles := use_cycles c |}.

(** [for (order = 10; order <= 24; order++) for (step = 0; step < 2;
    step++) { ...; cfg.size = size; run_benchmark(&cfg); }]: the
    configurations handed to [run_benchmark], in order. *)
Definition sweep (c : cfg) : outcome (list cfg) :=
  for_loop 10 25
    (fun order runs =>
       for_loop 0 2 (fun step runs => Ok (runs ++ [with_size c (sweep_size order step)])) runs)
    [].

(** The calls of [run_benchmark] that [main] makes for a command line:
    one when a size was given, the sweep otherwise. *)
Definition main_runs (ar : arch) (opts : list option_arg) : outcome (list cfg) :=
  c ← main_config ar opts;
  if negb (size c =? 0) then Ok [c] else sweep c.

(** ** Further predicates *)

(** The members of a CPU set that [run_benchmark] can hand out, in the
    order in which it does. *)
Definition cpu_members (set : Z) : list Z :=
  filter (fun j => CPU_ISSET j set = true) (seqZ 0 MAX_CPUS).

(** Whether the set has a member that [run_benchmark] never hands out,
    at or above [MAX_CPUS]. *)
Definition has_high_member (set : Z) : bool :=
  existsb (fun j => CPU_ISSET j set) (seqZ MAX_CPUS (CPU_SETSIZE - MAX_CPUS)).

(** What [thread[i].cpu] holds once worker [i] is created from [set]:
    the [i]-th member below [MAX_CPUS] while there is one; after that
    nothing ([None]) if the set still has a member, and [i] if it is
    empty. *)
Definition assigned_cpu (set i : Z) : option Z :=
  match cpu_members set !! Z.to_nat i with
  | Some j => Some j
  | None => if has_high_member set then None else Some i
  end.

(** What the loop of [run_benchmark] has established when [i] workers are
    created from the set [set0]. *)
Definition spawn_inv (set0 i : Z) (st : thread_table * Z * list Z) : Prop :=
  (forall j, CPU_ISSET j st.1.2
             = CPU_ISSET j set0 && bool_decide (j ∉ take (Z.to_nat i) (cpu_members set0))) /\
  length st.1.1 = Z.to_nat MAX_CPUS /\
  (forall t, 0 <= t < i -> st.1.1 !! Z.to_nat t = Some (assigned_cpu set0 t)) /\
  (forall t, i <= t < MAX_CPUS -> st.1.1 !! Z.to_nat t = Some None) /\
  st.2 = seqZ 0 i.

(** The count a clock reading stands for before it is cut to 64 bits:
    the nanoseconds of the monotonic clock, or the cycles counted. *)
Definition true_count (c : cfg) (h : clock_reading) : Z :=
  if negb (use_cycles c) then tv_sec h * 1000000000 + tv_nsec h else PMCCNTR_EL0 h.

(** The working-set sizes of the sweep: [2^order] and [1.5 * 2^order]
    for [order] from 10 to 24. *)
Definition sweep_sizes : list Z :=
  order ← seqZ 10 15; [sweep_size order 0; sweep_size order 1].

(** [-y -s 1024 -c 64], and two readings of a cycle counter that passes
    [2^64] between them. *)
Definition cfg_cycles : cfg :=
  {| sequential := true; size := 1024; num_threads := 1; read_count := 64;
     cpu_set := CPU_ZERO; write := false; ofs := 0; use_cycles := true |}.
Definition before_wrap : clock_reading :=
  {| tv_sec := 0; tv_nsec := 0; PMCCNTR_EL0 := 2 ^ 64 - 5 |}.
Definition after_wrap : clock_reading :=
  {| tv_sec := 0; tv_nsec := 0; PMCCNTR_EL0 := 2 ^ 64 + 10 |}.

(** [-C 2 -C 5 -t 3 -s 1024] and [-C 2 -t 3 -s 1024] *)
Definition cfg_C2_C5_t3 : cfg :=
  {| sequential := true; size := 1024; num_threads := 3; read_count := 0x2000000;
     cpu_set := CPU_SET 5 (CPU_SET 2 CPU_ZERO); write := false; ofs := 0;
     use_cycles := false |}.
Definition cfg_C2_t3 : cfg :=
  {| sequential := true; size := 1024; num_threads := 3; read_count := 0x2000000;
     cpu_set := CPU_SET 2 CPU_ZERO; write := false; ofs := 0; use_cycles := false |}.

(** ** csvRow.cpp

    A [std::string] is the list of its characters.  The header
    [csvRow.h] is not among the sources: the members [header], [order],
    [columns] and [row] have the types their uses in [csvRow.cpp] show
    (an [unsigned int], a vector of columns, a vector of strings).  A
    call whose behaviour C++ leaves undefined yields [None]. *)

Definition DQUOTE : ascii := ascii_of_nat 34.
Definition COMMA : ascii := ","%char.
Definition SPACE : ascii := " "%char.
Definition NEWLINE : ascii := ascii_of_nat 10.

(** [std::string::npos] and the conversions between [size_t] and
    [int] that [csvEscape] goes through. *)
Definition npos : Z := 2 ^ 64 - 1.
Definition to_int (z : Z) : Z :=
  let w := z mod 2 ^ 32 in if w <? 2 ^ 31 then w else w - 2 ^ 32.
Definition to_size_t (z : Z) : Z := z mod 2 ^ 64.

(** [s.find_first_of(c, pos)] *)
Fixpoint find_from (s : list ascii) (c : ascii) (pos : nat) : option nat :=
  match s with
  | [] => None
  | x :: s' =>
      match pos with
      | O => if decide (x = c) then Some 0%nat else S <$> find_from s' c 0
      | S pos' => S <$> find_from s' c pos'
      end
  end.

Definition find_first_of (s : list ascii) (c : ascii) (pos : Z) : Z :=
  match find_from s c (Z.to_nat pos) with
  | Some k => Z.of_nat k
  | None => npos
  end.

(** [s.insert(pos, 1, c)] *)
Definition insert_at (pos : Z) (c : ascii) (s : list ascii) : list ascii :=
  take (Z.to_nat pos) s ++ c :: drop (Z.to_nat pos) s.

(** [while ((first = unsafe.find_first_of('"', first)) >= 0) {
      unsafe.insert(first, "\""); first += 2; }] *)
Fixpoint escape_quotes (fuel : nat) (unsafe : list ascii) (first : Z)
  : outcome (list ascii) :=
  match fuel with
  | O => OutOfFuel
  | S fuel' =>
      let first' := to_int (find_first_of unsafe DQUOTE (to_size_t first)) in
      if first' >=? 0
      then escape_quotes fuel' (insert_at first' DQUOTE unsafe) (first' + 2)
      else Ok unsafe
  end.

Definition csvEscape (fuel : nat) (unsafe : list ascii) : outcome (list ascii) :=
  unsafe ← escape_quotes fuel unsafe 0;
  if (to_int (find_first_of unsafe COMMA 0) >=? 0)
     || (to_int (find_first_of unsafe SPACE 0) >=? 0)
  then Ok (DQUOTE :: unsafe ++ [DQUOTE])
  else Ok unsafe.

Record CsvColumn : Type := { header : list ascii; order : Z }.

(** [CsvColumns::add]: the new column list and the column returned
    ([new] does not return a null pointer). *)
Definition CsvColumns_add (columns : list CsvColumn) (name : list ascii)
  : list CsvColumn * CsvColumn :=
  let newColumn := {| header := name; order := wrap32 (Z.of_nat (length columns)) |} in
  (columns ++ [newColumn], newColumn).

(** [CsvRow::set(CsvColumn *, std::string)]; a null [column] is [None]. *)
Definition CsvRow_set (fuel : nat) (row : list (list ascii)) (column : option CsvColumn)
    (data : list ascii) : outcome (list (list ascii)) :=
  match column with
  | None => Ok row
  | Some col =>
      data ← csvEscape fuel data;
      if order col <? Z.of_nat (length row)
      then Ok (<[Z.to_nat (order col) := data]> row)
      else Ok (Nat.iter (Z.to_nat (order col) - length row) (fun r => r ++ [[]]) row
               ++ [data])
  end.

(** [CsvRow::getValue]; with a null [column] a [std::string] is built
    from [NULL], which is undefined. *)
Definition CsvRow_getValue (row : list (list ascii)) (column : option CsvColumn)
  : option (list ascii) :=
  match column with
  | None => None
  | Some col =>
      Some (if order col <? Z.of_nat (length row)
            then default [] (row !! Z.to_nat (order col))
            else [])
  end.

(** [CsvColumns::setHeader] *)
Fixpoint CsvColumns_setHeader (fuel : nat) (columns : list CsvColumn)
    (row : list (list ascii)) : outcome (list (list ascii)) :=
  match columns with
  | [] => Ok row
  | column :: rest =>
      row ← CsvRow_set fuel row (Some column) (header column);
      CsvColumns_setHeader fuel rest row
  end.

(** [CsvRow::toString]; [pop_back] on an empty string is undefined. *)
Definition CsvRow_toString (row : list (list ascii)) : option (list ascii) :=
  let line := fold_left (fun line str => (line ++ str) ++ [COMMA]) row [] in
  match line with
  | [] => None
  | _ => Some (removelast line ++ [NEWLINE])
  end.

(** What escaping comes to: every double quote doubled, and the whole
    put between double quotes when it holds a comma or a space. *)
Definition double_quotes (s : list ascii) : list ascii :=
  c ← s; if decide (c = DQUOTE) then [DQUOTE; DQUOTE] else [c].
Definition needs_quoting (s : list ascii) : bool :=
  bool_decide ((COMMA ∈ s) \/ (SPACE ∈ s)).
Definition escaped (s : list ascii) : list ascii :=
  if needs_quoting s then DQUOTE :: double_quotes s ++ [DQUOTE] else double_quotes s.

(** The fields of a line, joined by commas. *)
Fixpoint join_commas (row : list (list ascii)) : list ascii :=
  match row with
  | [] => []
  | [str] => str
  | str :: rest => str ++ COMMA :: join_commas rest
  end.

(** Number of double quotes, the number of turns the escaping loop
    takes. *)
Definition quotes (s : list ascii) : nat := count_occ ascii_dec s DQUOTE.

(** [add] called once for each of [names], in order. *)
Definition add_all (columns : list CsvColumn) (names : list (list ascii))
  : list CsvColumn :=
  fold_left (fun cs name => fst (CsvColumns_add cs name)) names columns.

Definition column_0 : CsvColumn := {| header := []; order := 0 |}.
Definition column_3 : CsvColumn := {| header := []; order := 3 |}.
Definition field_a_b : list ascii := ["a"; " "; "b"]%char.
Definition field_quoted : list ascii := [DQUOTE; "a"%char; DQUOTE].
Definition field_plain : list ascii := ["a"; "b"]%char.

(** * Properties *)

(** ** Memory lemmas *)

(** The nodes of an arena are looked up by [nat]; an [int] index [i]
    that is known to be non-negative is put in that form. *)
Ltac index_as_nat a i :=
  replace (addr a i) with (addr a (Z.of_nat (Z.to_nat i)))
    by (by rewrite Z2Nat.id by lia).


Lemma bind_Ok {A B : Type} (m : outcome A) (f : A -> outcome B) (b : B) :
  (a ← m; f a) = Ok b <-> exists a, m = Ok a /\ f a = Ok b.
Proof.
  destruct m; simpl; split; try (intros [? [? ?]]); try discriminate; eauto.
  congruence.
Qed.

Lemma cell_index_addr (a : arena) (n : nat) :
  (n < length (cells a))%nat -> cell_index a (addr a (Z.of_nat n)) = Ok n.
Proof.
  intros Hn. unfold cell_index, addr, capacity, CACHELINE.
  replace (base a + 64 * Z.of_nat n - base a) with (Z.of_nat n * 64) by lia.
  rewrite Z.mod_mul, Z.div_mul by lia. simpl.
  destruct (Z.leb_spec 0 (Z.of_nat n * 64)); [|lia].
  destruct (Z.ltb_spec (Z.of_nat n) (Z.of_nat (length (cells a)))); [|lia].
  simpl. by rewrite Nat2Z.id.
Qed.

Lemma cell_index_Ok (a : arena) (p : Z) (n : nat) :
  cell_index a p = Ok n -> p = addr a (Z.of_nat n) /\ (n < length (cells a))%nat.
Proof.
  unfold cell_index, addr, capacity, CACHELINE.
  destruct (Z.eqb_spec ((p - base a) mod 64) 0) as [Hm|]; simpl; [|discriminate].
  destruct (Z.leb_spec 0 (p - base a)); simpl; [|discriminate].
  destruct (Z.ltb_spec ((p - base a) / 64) (Z.of_nat (length (cells a)))); [|discriminate].
  intros [= <-].
  assert (0 <= (p - base a) / 64) by (apply Z.div_pos; lia).
  rewrite Z2Nat.id by lia.
  pose proof (Z.div_mod (p - base a) 64 ltac:(lia)). lia.
Qed.

Lemma addr_inj (a : arena) (j k : Z) : addr a j = addr a k -> j = k.
Proof. unfold addr, CACHELINE. lia. Qed.

Lemma load_ptr_addr (a : arena) (n : nat) (c : struct_s) :
  cells a !! n = Some c -> load_ptr a (addr a (Z.of_nat n)) = Ok (ptr c).
Proof.
  intros Hc. unfold load_ptr, load.
  rewrite cell_index_addr by (by eapply lookup_lt_Some). simpl. by rewrite Hc.
Qed.

Lemma load_ptr_Ok (a : arena) (p v : Z) :
  load_ptr a p = Ok v ->
  exists n c, p = addr a (Z.of_nat n) /\ cells a !! n = Some c /\ ptr c = v.
Proof.
  unfold load_ptr, load. intros H.
  apply bind_Ok in H as [c [H1 H2]]. apply bind_Ok in H1 as [n [Hn H1]].
  apply cell_index_Ok in Hn as [-> _].
  destruct (cells a !! n) eqn:E; [|discriminate].
  exists n, c. injection H1 as <-. injection H2 as <-. done.
Qed.

Lemma store_ptr_addr (a : arena) (n : nat) (c : struct_s) (v : Z) :
  cells a !! n = Some c ->
  store_ptr a (addr a (Z.of_nat n)) v =
    Ok {| base := base a; cells := <[n := {| ptr := v; dummy := dummy c |}]> (cells a) |}.
Proof.
  intros Hc. unfold store_ptr.
  rewrite cell_index_addr by (by eapply lookup_lt_Some). simpl. by rewrite Hc.
Qed.

Lemma store_ptr_Ok (a a' : arena) (p v : Z) :
  store_ptr a p v = Ok a' ->
  exists n c, p = addr a (Z.of_nat n) /\ cells a !! n = Some c /\
    a' = {| base := base a; cells := <[n := {| ptr := v; dummy := dummy c |}]> (cells a) |}.
Proof.
  unfold store_ptr. intros H. apply bind_Ok in H as [n [Hn H]].
  apply cell_index_Ok in Hn as [-> _].
  destruct (cells a !! n) eqn:E; [|discriminate].
  exists n, s. by injection H as <-.
Qed.

(** ** The generic loop rule *)

Lemma for_count_inv {St : Type} (P : Z -> St -> Prop) (body : Z -> St -> outcome St)
    (n : nat) (i : Z) (st : St) :
  P i st ->
  (forall j s, i <= j < i + Z.of_nat n -> P j s -> exists s', body j s = Ok s' /\ P (j + 1) s') ->
  exists st', for_count n i body st = Ok st' /\ P (i + Z.of_nat n) st'.
Proof.
  revert i st. induction n as [|n IH]; intros i st HP Hstep.
  - exists st. split; [done|]. by replace (i + Z.of_nat 0) with i by lia.
  - destruct (Hstep i st ltac:(lia) HP) as [s' [Hb HP']].
    destruct (IH (i + 1) s' HP') as [st' [Hf HP'']].
    { intros j s Hj. apply Hstep. lia. }
    exists st'. simpl. rewrite Hb. simpl. split; [done|].
    by replace (i + Z.of_nat (S n)) with (i + 1 + Z.of_nat n) by lia.
Qed.

(** ** Sequential mode *)

Lemma seq_inv_step (a0 a : arena) (j : Z) :
  0 <= j -> j < capacity a0 ->
  seq_inv a0 j a ->
  exists a', link_sequential j a = Ok a' /\ seq_inv a0 (j + 1) a'.
Proof.
  intros Hj0 Hj (Hb & Hl & Hd & Hrest & Hdone). unfold capacity in Hj.
  destruct (lookup_lt_is_Some_2 (cells a) (Z.to_nat j)) as [c Hc]; [lia|].
  unfold link_sequential.
  index_as_nat a j.
  rewrite (store_ptr_addr _ _ _ _ Hc).
  eexists. split; [done|]. unfold seq_inv; simpl.
  split; [done|]. split; [by rewrite length_insert|].
  split; [|split].
  - intros n. destruct (decide (n = Z.to_nat j)) as [->|Hne].
    + rewrite list_lookup_insert_eq by (by eapply lookup_lt_Some). simpl.
      rewrite <- Hd, Hc. done.
    + rewrite list_lookup_insert_ne by done. apply Hd.
  - intros n Hn. rewrite list_lookup_insert_ne by lia. apply Hrest. lia.
  - intros n Hn. destruct (decide (n = Z.to_nat j)) as [->|Hne].
    + rewrite list_lookup_insert_eq by (by eapply lookup_lt_Some). simpl.
      unfold addr. rewrite Hb, Z2Nat.id by lia. done.
    + rewrite list_lookup_insert_ne by done. apply Hdone. lia.
Qed.

Lemma seq_inv_init (a0 : arena) : seq_inv a0 0 a0.
Proof. unfold seq_inv. repeat split; try done. intros n Hn. lia. Qed.

(** The sequential branch of [prepare], for a working set of at least one
    node that fits the arena. *)
Lemma prepare_sequential_spec (fuel : nat) (rnd : nat -> Z) (calls : nat)
    (a : arena) (size : Z) :
  1 <= size / CACHELINE <= capacity a ->
  exists a',
    prepare fuel rnd calls a size true
      = Ok {| pr_arena := a'; pr_calls := calls; pr_probes := [] |} /\
    base a' = base a /\
    length (cells a') = length (cells a) /\
    (forall n, dummy <$> cells a' !! n = dummy <$> cells a !! n) /\
    (forall n, size / CACHELINE <= Z.of_nat n -> cells a' !! n = cells a !! n) /\
    (forall n, Z.of_nat n < size / CACHELINE - 1 ->
               ptr <$> cells a' !! n = Some (addr a (Z.of_nat n + 1))) /\
    ptr <$> cells a' !! Z.to_nat (size / CACHELINE - 1) = Some (addr a 0).
Proof.
  set (count := size / CACHELINE). intros Hc.
  destruct (for_count_inv (seq_inv a) link_sequential (Z.to_nat (count - 1 - 0)) 0 a
              (seq_inv_init a)) as [a1 [Hloop Hinv]].
  { intros j s Hj. apply seq_inv_step; lia. }
  rewrite Z2Nat.id in Hinv by lia. replace (0 + (count - 1 - 0)) with (count - 1) in Hinv by lia.
  destruct Hinv as (Hb & Hl & Hd & Hrest & Hdone).
  unfold capacity in Hc.
  destruct (lookup_lt_is_Some_2 (cells a1) (Z.to_nat (count - 1))) as [c Hlast]; [lia|].
  exists {| base := base a1;
            cells := <[Z.to_nat (count - 1) := {| ptr := addr a1 0; dummy := dummy c |}]> (cells a1) |}.
  split.
  { unfold prepare, for_loop. fold count. rewrite Hloop. simpl.
    index_as_nat a1 (count - 1).
    rewrite (store_ptr_addr _ _ _ _ Hlast). done. }
  simpl. split; [done|]. split; [by rewrite length_insert|].
  split; [|split; [|split]].
  - intros n. destruct (decide (n = Z.to_nat (count - 1))) as [->|Hne].
    + rewrite list_lookup_insert_eq by (by eapply lookup_lt_Some). simpl.
      by rewrite <- Hd, Hlast.
    + rewrite list_lookup_insert_ne by done. apply Hd.
  - intros n Hn. rewrite list_lookup_insert_ne by lia. apply Hrest. lia.
  - intros n Hn. rewrite list_lookup_insert_ne by lia. apply Hdone. lia.
  - rewrite list_lookup_insert_eq by (by eapply lookup_lt_Some). simpl.
    unfold addr. by rewrite Hb.
Qed.

(** ** The batch loop *)

Lemma iterM_add {St : Type} (m n : nat) (body : St -> outcome St) (st : St) :
  iterM (m + n) body st = (st' ← iterM m body st; iterM n body st').
Proof.
  revert st. induction m as [|m IH]; intros st; simpl; [done|].
  destruct (body st); simpl; auto.
Qed.

Lemma iterM_nested {St : Type} (m n : nat) (body : St -> outcome St) (st : St) :
  iterM m (iterM n body) st = iterM (m * n) body st.
Proof.
  revert st. induction m as [|m IH]; intros st; [done|].
  change (S m * n)%nat with (n + m * n)%nat. rewrite iterM_add. simpl.
  destruct (iterM n body st); simpl; auto.
Qed.

Lemma wrap32_small (z : Z) : 0 <= z < 2 ^ 32 -> wrap32 z = z.
Proof. intros H. unfold wrap32. by apply Z.mod_small. Qed.

Lemma wrap32_range (z : Z) : 0 <= wrap32 z < 2 ^ 32.
Proof. unfold wrap32. apply Z.mod_pos_bound. lia. Qed.

(** With fuel for one more test than the body runs, [while (--i)] is the
    [wrap32 (i - 1)]-fold iteration of its body. *)
Lemma while_predec_iterM {St : Type} (n fuel : nat) (i : Z)
    (body : St -> outcome St) (st : St) :
  wrap32 (i - 1) = Z.of_nat n -> (n < fuel)%nat ->
  while_predec fuel i body st = iterM n body st.
Proof.
  revert fuel i st. induction n as [|n IH]; intros fuel i st Hi Hf.
  - destruct fuel as [|fuel]; [lia|]. simpl. by rewrite Hi.
  - destruct fuel as [|fuel]; [lia|]. simpl. rewrite Hi.
    destruct (Z.eqb_spec (Z.of_nat (S n)) 0) as [|_]; [lia|].
    destruct (body st) as [st'| | |]; simpl; try done.
    apply IH; [|lia].
    pose proof (wrap32_range (i - 1)).
    rewrite wrap32_small; lia.
Qed.

Lemma batches_range (reads : Z) : 0 <= batches reads < 2 ^ 32.
Proof. apply wrap32_range. Qed.

Lemma batches_ge32 (reads : Z) :
  32 <= reads < 2 ^ 32 -> batches reads = reads / 32 - 1.
Proof.
  intros H. unfold batches. apply wrap32_small.
  assert (1 <= reads / 32) by (apply Z.div_le_lower_bound; lia).
  assert (reads / 32 < 2 ^ 32) by (apply Z.div_lt_upper_bound; lia).
  lia.
Qed.

Lemma batches_lt32 (reads : Z) : 0 <= reads < 32 -> batches reads = 2 ^ 32 - 1.
Proof. intros H. unfold batches. rewrite Z.div_small by done. reflexivity. Qed.

(** ** Write steps *)

Lemma incr_dummy_addr (a : arena) (n : nat) (c : struct_s) (ofs : Z) :
  cells a !! n = Some c -> 0 <= ofs < DUMMY_LEN ->
  incr_dummy a (addr a (Z.of_nat n)) ofs =
    Ok {| base := base a; cells := <[n := bump_node ofs 1 c]> (cells a) |}.
Proof.
  intros Hc Ho. unfold incr_dummy.
  rewrite cell_index_addr by (by eapply lookup_lt_Some). simpl. rewrite Hc.
  destruct (Z.leb_spec 0 ofs); [|lia]. destruct (Z.ltb_spec ofs DUMMY_LEN); [|lia].
  done.
Qed.

Lemma bump_node_0 (ofs : Z) (c : struct_s) : bump_node ofs 0 c = c.
Proof. destruct c as [p d]. unfold bump_node. simpl. by rewrite list_alter_id. Qed.

Lemma bump_node_add (ofs : Z) (j k : nat) (c : struct_s) :
  bump_node ofs k (bump_node ofs j c) = bump_node ofs (j + k) c.
Proof.
  unfold bump_node. simpl. f_equal. rewrite list_alter_alter_eq.
  apply list_alter_ext; [|done]. intros d _. simpl.
  rewrite (Nat.add_comm j k). symmetry. apply Nat.iter_add.
Qed.

Lemma bumped_nil (ofs : Z) (a : arena) : bumped ofs a [] a.
Proof.
  repeat split. intros n. simpl. destruct (cells a !! n); simpl; [|done].
  by rewrite bump_node_0.
Qed.

Lemma bumped_one (ofs : Z) (a : arena) (n : nat) (c : struct_s) :
  cells a !! n = Some c ->
  bumped ofs a [addr a (Z.of_nat n)]
    {| base := base a; cells := <[n := bump_node ofs 1 c]> (cells a) |}.
Proof.
  intros Hc. split; [done|]. split; [simpl; by rewrite length_insert|].
  intros m. simpl. destruct (decide (m = n)) as [->|Hne].
  - rewrite list_lookup_insert_eq by (by eapply lookup_lt_Some). rewrite Hc. simpl.
    destruct (Z.eq_dec _ _); [done|congruence].
  - rewrite list_lookup_insert_ne by done.
    destruct (Z.eq_dec (addr a (Z.of_nat n)) (addr a (Z.of_nat m))) as [E|_].
    + apply addr_inj in E. lia.
    + destruct (cells a !! m); simpl; [|done]. by rewrite bump_node_0.
Qed.

Lemma bumped_app (ofs : Z) (a a1 a2 : arena) (v1 v2 : list Z) :
  bumped ofs a v1 a1 -> bumped ofs a1 v2 a2 -> bumped ofs a (v1 ++ v2) a2.
Proof.
  intros (Hb1 & Hl1 & H1) (Hb2 & Hl2 & H2).
  split; [congruence|]. split; [congruence|].
  intros n. rewrite H2, H1. unfold addr. rewrite Hb1.
  destruct (cells a !! n); simpl; [|done].
  by rewrite bump_node_add, count_occ_app.
Qed.

Lemma bumped_same_links (ofs : Z) (a a' : arena) (v : list Z) :
  bumped ofs a v a' -> same_links a a'.
Proof.
  intros (Hb & _ & H). split; [done|]. intros n. rewrite H.
  by destruct (cells a !! n).
Qed.

Lemma bumped_load_ptr (ofs : Z) (a a' : arena) (v : list Z) (p : Z) :
  bumped ofs a v a' -> load_ptr a' p = load_ptr a p.
Proof.
  intros (Hb & Hl & H). unfold load_ptr, load, cell_index, capacity.
  rewrite Hb, Hl.
  destruct (negb _); [done|]. destruct (_ && _); [|done]. simpl.
  rewrite H. by destruct (cells a !! _).
Qed.

Lemma iterM_ext {St : Type} (n : nat) (f g : St -> outcome St) (st : St) :
  (forall s, f s = g s) -> iterM n f st = iterM n g st.
Proof.
  intros E. revert st. induction n as [|n IH]; intros st; simpl; [done|].
  rewrite E. destruct (g st); simpl; auto.
Qed.

Lemma bumped_read_step (ofs : Z) (a a' : arena) (v : list Z) (st : read_state) :
  bumped ofs a v a' -> read_step a' st = read_step a st.
Proof. intros H. destruct st as [p l]. simpl. by rewrite (bumped_load_ptr _ _ _ _ _ H). Qed.

(** The log only grows at its end. *)
Lemma read_log_shift (a : arena) (n : nat) (p : Z) (visited : list Z) :
  iterM n (read_step a) (p, visited)
  = ('(q, v) ← iterM n (read_step a) (p, []); Ok (q, visited ++ v)).
Proof.
  revert p visited. induction n as [|n IH]; intros p visited; simpl.
  - by rewrite app_nil_r.
  - destruct (load_ptr a p) as [v1| | |]; simpl; try done.
    rewrite (IH v1 (visited ++ [p])), (IH v1 [p]).
    destruct (iterM n (read_step a) (v1, [])) as [[q v]| | |]; simpl; try done.
    by rewrite <- app_assoc.
Qed.

(** A write chase follows the read chase of the arena it started in and
    increments one word for each node it passes. *)
Lemma write_steps_spec (ofs : Z) (k : nat) :
  0 <= ofs < DUMMY_LEN ->
  forall a p q v log,
    iterM k (read_step a) (p, []) = Ok (q, v) ->
    exists a', iterM k (write_step ofs) (a, p, log) = Ok (a', q, log ++ v) /\
               bumped ofs a v a'.
Proof.
  intros Ho. induction k as [|k IH]; intros a p q v log Hr.
  - simpl in Hr. injection Hr as <- <-. exists a. simpl. rewrite app_nil_r.
    split; [done|apply bumped_nil].
  - simpl in Hr. destruct (load_ptr a p) as [p1| | |] eqn:Hp; simpl in Hr; try discriminate.
    rewrite read_log_shift in Hr.
    destruct (iterM k (read_step a) (p1, [])) as [[q' v']| | |] eqn:Hk; simpl in Hr;
      try discriminate.
    injection Hr as <- <-.
    apply load_ptr_Ok in Hp as (n & c & -> & Hc & Hpc).
    pose proof (bumped_one ofs a n c Hc) as Hb1.
    set (a1 := {| base := base a; cells := <[n := bump_node ofs 1 c]> (cells a) |}) in *.
    destruct (IH a1 p1 q' v' (log ++ [addr a (Z.of_nat n)])) as (a' & Hw & Hb2).
    { etrans; [|exact Hk]. apply iterM_ext. intros s. by eapply bumped_read_step. }
    exists a'. split.
    + simpl. rewrite (incr_dummy_addr _ _ _ _ Hc Ho). simpl. fold a1.
      rewrite (bumped_load_ptr _ _ _ _ (addr a (Z.of_nat n)) Hb1).
      rewrite (load_ptr_addr _ _ _ Hc). simpl. rewrite Hpc, Hw.
      by rewrite <- app_assoc.
    + by apply (bumped_app ofs a a1 a' [addr a (Z.of_nat n)] v').
Qed.

(** ** Passes over a cycle *)

Lemma read_log_length (a : arena) (n : nat) (p q : Z) (log log' : list Z) :
  iterM n (read_step a) (p, log) = Ok (q, log') -> length log' = (length log + n)%nat.
Proof.
  revert p log. induction n as [|n IH]; intros p log H; simpl in H.
  - injection H as _ <-. lia.
  - destruct (load_ptr a p) as [v| | |]; simpl in H; try discriminate.
    apply IH in H. rewrite H, length_app. simpl. lia.
Qed.

Lemma iterM_prefix {St : Type} (m n : nat) (body : St -> outcome St) (st r : St) :
  iterM (m + n) body st = Ok r ->
  exists mid, iterM m body st = Ok mid /\ iterM n body mid = Ok r.
Proof. rewrite iterM_add. intros H. by apply bind_Ok in H. Qed.

Lemma cycle_passes (a : arena) (count : nat) (cycle : list Z) (k : nat) :
  iterM count (read_step a) (addr a 0, []) = Ok (addr a 0, cycle) ->
  iterM (k * count) (read_step a) (addr a 0, []) = Ok (addr a 0, passes k cycle).
Proof.
  intros Hc. induction k as [|k IH]; [done|].
  change (S k * count)%nat with (count + k * count)%nat.
  rewrite iterM_add, Hc. simpl. rewrite read_log_shift, IH. done.
Qed.

Lemma count_occ_passes (k : nat) (cycle : list Z) (x : Z) :
  count_occ Z.eq_dec (passes k cycle) x = (k * count_occ Z.eq_dec cycle x)%nat.
Proof.
  induction k as [|k IH]; [done|]. simpl. rewrite count_occ_app, IH. lia.
Qed.

Lemma single_cycle_length (a : arena) (count : Z) (cycle : list Z) :
  single_cycle a count cycle -> length cycle = Z.to_nat count.
Proof. intros (Hw & _ & _). by apply read_log_length in Hw. Qed.

(** A cycle of [count] distinct nodes among the first [count] passes
    each of them, once. *)
Lemma single_cycle_covers (a : arena) (count : Z) (cycle : list Z) (n : nat) :
  single_cycle a count cycle -> Z.of_nat n < count ->
  count_occ Z.eq_dec cycle (addr a (Z.of_nat n)) = 1%nat.
Proof.
  intros Hc Hn. pose proof (single_cycle_length _ _ _ Hc) as Hlen.
  destruct Hc as (_ & Hnd & Hin).
  set (all := (fun m => addr a (Z.of_nat m)) <$> seq 0 (Z.to_nat count)).
  assert (cycle ≡ₚ all) as Hperm.
  { apply submseteq_length_Permutation.
    - apply NoDup_submseteq; [done|]. intros p Hp.
      destruct (Hin p Hp) as (k & Hk & ->).
      apply list_elem_of_fmap. exists (Z.to_nat k). split.
      + by rewrite Z2Nat.id by lia.
      + apply elem_of_seq. lia.
    - unfold all. rewrite length_fmap, length_seq. lia. }
  assert (addr a (Z.of_nat n) ∈ cycle) as Hmem.
  { rewrite Hperm. apply list_elem_of_fmap. exists n. split; [done|].
    apply elem_of_seq. lia. }
  apply NoDup_ListNoDup in Hnd. apply list_elem_of_In in Hmem.
  pose proof (proj1 (NoDup_count_occ Z.eq_dec cycle) Hnd (addr a (Z.of_nat n))).
  apply (count_occ_In Z.eq_dec) in Hmem. lia.
Qed.

Lemma iter_incr32 (k : nat) (d : Z) :
  0 <= d < 2 ^ 32 -> Nat.iter k incr32 d = wrap32 (d + Z.of_nat k).
Proof.
  intros Hd. induction k as [|k IH]; simpl.
  - rewrite Z.add_0_r. symmetry. by apply wrap32_small.
  - rewrite IH. unfold incr32, wrap32. rewrite Zplus_mod_idemp_l. f_equal. lia.
Qed.

Lemma do_write_iterM (fuel : nat) (a : arena) (accesses ofs : Z) :
  batches accesses < Z.of_nat fuel ->
  do_write fuel a accesses ofs
  = iterM (Z.to_nat (32 * batches accesses)) (write_step ofs) (a, addr a 0, []).
Proof.
  intros Hf. pose proof (batches_range accesses) as Hb. unfold do_write, write_batch.
  rewrite (while_predec_iterM (Z.to_nat (batches accesses))) by (unfold batches in *; lia).
  rewrite iterM_nested. f_equal. lia.
Qed.

Lemma do_read_iterM (fuel : nat) (a : arena) (reads : Z) :
  batches reads < Z.of_nat fuel ->
  do_read fuel a reads
  = iterM (Z.to_nat (32 * batches reads)) (read_step a) (addr a 0, []).
Proof.
  intros Hf. pose proof (batches_range reads) as Hb. unfold do_read, read_batch.
  rewrite (while_predec_iterM (Z.to_nat (batches reads))) by (unfold batches in *; lia).
  rewrite iterM_nested. f_equal. lia.
Qed.

(** On a cycle a chase of any length succeeds. *)
Lemma single_cycle_chase (a : arena) (count : Z) (cycle : list Z) (n : nat) :
  1 <= count -> single_cycle a count cycle ->
  exists q v, iterM n (read_step a) (addr a 0, []) = Ok (q, v).
Proof.
  intros Hc (Hw & _ & _).
  pose proof (cycle_passes a (Z.to_nat count) cycle n Hw) as Hp.
  replace (n * Z.to_nat count)%nat with (n + (n * Z.to_nat count - n))%nat in Hp by nia.
  apply iterM_prefix in Hp as ([q v] & Hp & _). eauto.
Qed.

Lemma wf_arenab_true (a : arena) : wf_arenab a = true -> wf_arena a.
Proof.
  unfold wf_arenab, wf_arena. rewrite forallb_forall. intros H n c Hc.
  specialize (H c). rewrite <- list_elem_of_In in H.
  specialize (H ltac:(by eapply list_elem_of_lookup_2)).
  apply andb_true_iff in H as [Hl Hd]. split; [by apply Nat.eqb_eq|].
  apply List.Forall_forall. intros d Hin. rewrite forallb_forall in Hd.
  specialize (Hd d Hin). lia.
Qed.

Lemma seq4_wf : wf_arena seq4.
Proof. apply wf_arenab_true. vm_compute. reflexivity. Qed.

Lemma seq4_single_cycle : single_cycle seq4 4 seq4_cycle.
Proof.
  split; [vm_compute; reflexivity|]. split.
  - apply (bool_decide_unpack _). vm_compute. exact I.
  - intros p Hp. unfold seq4_cycle in Hp.
    repeat (apply elem_of_cons in Hp as [->|Hp]);
      [exists 0|exists 1|exists 2|exists 3|by apply elem_of_nil in Hp];
      (split; [lia|vm_compute; reflexivity]).
Qed.

(** ** The timing source and the options *)

Lemma getopt_loop_app (opts1 opts2 : list option_arg) (c : cfg) :
  getopt_loop (opts1 ++ opts2) c = (c' ← getopt_loop opts1 c; getopt_loop opts2 c').
Proof.
  revert c. induction opts1 as [|o opts1 IH]; intros c; simpl; [done|].
  destruct (apply_option c o); simpl; auto.
Qed.

(** ** The worker table *)

Lemma for_count_add {St : Type} (m n : nat) (i : Z) (body : Z -> St -> outcome St) (st : St) :
  for_count (m + n) i body st
  = (st' ← for_count m i body st; for_count n (i + Z.of_nat m) body st').
Proof.
  revert i st. induction m as [|m IH]; intros i st; simpl.
  - by rewrite Z.add_0_r.
  - destruct (body i st); simpl; try done.
    rewrite IH. by replace (i + 1 + Z.of_nat m) with (i + Z.pos (Pos.of_succ_nat m)) by lia.
Qed.

Lemma spawn_one_in_table (i : Z) (thread : thread_table) (set : Z) (created : list Z) :
  0 <= i < Z.of_nat (length thread) ->
  exists thread' set',
    spawn_one i (thread, set, created) = Ok (thread', set', created ++ [i]) /\
    length thread' = length thread.
Proof.
  intros Hi. unfold spawn_one.
  destruct (Z.leb_spec 0 i); [|lia]. destruct (Z.ltb_spec i (Z.of_nat (length thread))); [|lia].
  simpl. destruct (CPU_COUNT set =? 0).
  - exists (<[Z.to_nat i := Some i]> thread), set. split; [done|]. apply length_insert.
  - destruct (first_cpu set) as [j|].
    + exists (<[Z.to_nat i := Some j]> thread), (CPU_CLR j set).
      split; [done|]. apply length_insert.
    + exists thread, set. split; done.
Qed.

(** Up to [MAX_CPUS] workers fit the table: worker [i] is created for
    each [i < num_threads] and no other. *)
Lemma spawn_within_table (c : cfg) :
  0 <= num_threads c <= MAX_CPUS ->
  exists thread set,
    run_benchmark_spawn c = Ok (thread, set, seqZ 0 (num_threads c)) /\
    length thread = Z.to_nat MAX_CPUS.
Proof.
  intros Hn. unfold run_benchmark_spawn, for_loop.
  destruct (for_count_inv
              (fun i st => length st.1.1 = Z.to_nat MAX_CPUS /\ st.2 = seqZ 0 i)
              spawn_one (Z.to_nat (num_threads c - 0)) 0
              (replicate (Z.to_nat MAX_CPUS) None, cpu_set c, []))
    as ([[thread set] created] & Hrun & Hlen & Hcr).
  - split; [apply length_replicate|done].
  - intros j [[thread set] created] Hj [Hlen Hcr]. simpl in *.
    destruct (spawn_one_in_table j thread set created) as (t' & s' & Hs & Hl'); [lia|].
    eexists. split; [exact Hs|]. simpl. split; [congruence|].
    rewrite Hcr, (seqZ_app 0 j 1) by lia. done.
  - simpl in Hlen, Hcr. exists thread, set. split; [|done].
    rewrite Hcr in Hrun.
    replace (0 + Z.of_nat (Z.to_nat (num_threads c - 0))) with (num_threads c) in Hrun by lia.
    exact Hrun.
Qed.

(** Past [MAX_CPUS] the ninth iteration writes [thread[8]]. *)
Lemma spawn_overruns_table (c : cfg) :
  MAX_CPUS < num_threads c -> run_benchmark_spawn c = Trap (OutOfBounds MAX_CPUS).
Proof.
  intros Hn. unfold run_benchmark_spawn, for_loop.
  replace (Z.to_nat (num_threads c - 0))
    with (Z.to_nat MAX_CPUS + S (Z.to_nat (num_threads c - MAX_CPUS - 1)))%nat
    by (unfold MAX_CPUS in *; lia).
  rewrite for_count_add.
  destruct (for_count_inv
              (fun i st => length st.1.1 = Z.to_nat MAX_CPUS)
              spawn_one (Z.to_nat MAX_CPUS) 0
              (replicate (Z.to_nat MAX_CPUS) None, cpu_set c, []))
    as ([[thread set] created] & Hrun & Hlen).
  - apply length_replicate.
  - intros j [[thread set] created] Hj Hlen. simpl in *.
    destruct (spawn_one_in_table j thread set created) as (t' & s' & Hs & Hl');
      [unfold MAX_CPUS in *; lia|].
    eexists. split; [exact Hs|]. simpl. congruence.
  - simpl in Hlen.
    etrans; [apply (f_equal (fun m => mbind _ m) Hrun)|].
    simpl. rewrite Hlen. reflexivity.
Qed.

(** ** Sequential mode yields one cycle over the working set *)

#[local] Instance addr_Inj (a : arena) : Inj (=) (=) (addr a).
Proof. intros j k. apply addr_inj. Qed.

Lemma iterM_snoc {St : Type} (n : nat) (body : St -> outcome St) (st : St) :
  iterM (S n) body st = (st' ← iterM n body st; body st').
Proof.
  replace (S n) with (n + 1)%nat by lia. rewrite iterM_add.
  destruct (iterM n body st) as [s| | |]; simpl; try done. by destruct (body s).
Qed.

Lemma sequential_walk (a : arena) (count : Z) (k : nat) :
  (forall n, Z.of_nat n < count - 1 ->
             ptr <$> cells a !! n = Some (addr a (Z.of_nat n + 1))) ->
  Z.of_nat k <= count - 1 ->
  iterM k (read_step a) (addr a 0, [])
  = Ok (addr a (Z.of_nat k), addr a <$> seqZ 0 (Z.of_nat k)).
Proof.
  intros Hnext. induction k as [|k IH]; intros Hk; [done|].
  rewrite iterM_snoc, IH by lia. simpl.
  specialize (Hnext k ltac:(lia)).
  destruct (cells a !! k) as [c|] eqn:Hc; [|discriminate]. injection Hnext as Hnext.
  rewrite (load_ptr_addr _ _ _ Hc). simpl. rewrite Hnext.
  rewrite seqZ_S, fmap_app. repeat f_equal. lia.
Qed.

(** The sequential branch of [prepare] builds a single cycle through
    exactly the working set, in index order. *)
Lemma prepare_sequential_single_cycle (fuel : nat) (rnd : nat -> Z) (calls : nat)
    (a : arena) (size : Z) :
  1 <= size / CACHELINE <= capacity a ->
  exists a',
    prepare fuel rnd calls a size true
      = Ok {| pr_arena := a'; pr_calls := calls; pr_probes := [] |} /\
    base a' = base a /\
    (forall n, dummy <$> cells a' !! n = dummy <$> cells a !! n) /\
    single_cycle a' (size / CACHELINE) (addr a' <$> seqZ 0 (size / CACHELINE)).
Proof.
  intros Hc.
  destruct (prepare_sequential_spec fuel rnd calls a size Hc)
    as (a' & Hp & Hb & Hl & Hd & _ & Hnext & Hlast).
  set (count := size / CACHELINE) in *.
  exists a'. split; [done|]. split; [done|]. split; [done|].
  assert (forall n, Z.of_nat n < count - 1 ->
                    ptr <$> cells a' !! n = Some (addr a' (Z.of_nat n + 1))) as Hnext'.
  { intros n Hn. rewrite (Hnext n Hn). unfold addr. by rewrite Hb. }
  split; [|split].
  - replace (Z.to_nat count) with (S (Z.to_nat (count - 1))) by lia.
    rewrite iterM_snoc, (sequential_walk a' count) by (done || lia). simpl.
    destruct (cells a' !! Z.to_nat (count - 1)) as [c|] eqn:Hcell; [|discriminate].
    injection Hlast as Hlast.
    rewrite (load_ptr_addr _ _ _ Hcell). simpl. rewrite Hlast.
    assert (addr a 0 = addr a' 0) as -> by (unfold addr; by rewrite Hb).
    f_equal. f_equal.
    replace count with (Z.of_nat (Z.to_nat (count - 1)) + 1) at 3 by lia.
    rewrite (seqZ_app 0 _ 1), fmap_app by lia. repeat f_equal.
  - apply NoDup_fmap_2; [apply _|]. apply NoDup_seqZ.
  - intros p Hp'. apply list_elem_of_fmap in Hp' as (k & -> & Hk).
    apply elem_of_seqZ in Hk. exists k. split; [lia|done].
Qed.

Lemma wf_arena_same_dummy (a a' : arena) :
  (forall n, dummy <$> cells a' !! n = dummy <$> cells a !! n) ->
  wf_arena a -> wf_arena a'.
Proof.
  intros Hd Hwf n c' Hc'. specialize (Hd n). rewrite Hc' in Hd.
  destruct (cells a !! n) as [c|] eqn:Hc; [|discriminate].
  injection Hd as ->. by apply (Hwf n c).
Qed.

Lemma fresh_arena_wf (b : Z) (n : nat) : wf_arena (fresh_arena b n).
Proof.
  intros k c Hc. apply lookup_replicate in Hc as [-> _]. split; [done|].
  apply Forall_replicate. lia.
Qed.

(** What sequential [prepare] returns meets the assumptions of the
    write-mode property: a well-formed arena holding a single cycle
    through the working set. *)
Lemma prepare_sequential_write_ready (fuel : nat) (rnd : nat -> Z) (calls : nat)
    (a : arena) (size : Z) :
  wf_arena a -> 1 <= size / CACHELINE <= capacity a ->
  exists r cycle,
    prepare fuel rnd calls a size true = Ok r /\
    wf_arena (pr_arena r) /\
    single_cycle (pr_arena r) (size / CACHELINE) cycle.
Proof.
  intros Hwf Hc.
  destruct (prepare_sequential_single_cycle fuel rnd calls a size Hc)
    as (a' & Hp & _ & Hd & Hcyc).
  eexists _, _. split; [exact Hp|]. split; [|exact Hcyc].
  by apply (wf_arena_same_dummy a).
Qed.

(** ** Random mode *)

Lemma memset0_spec (a : arena) (size : Z) :
  0 <= size -> size / CACHELINE < capacity a ->
  exists a0,
    memset0 a size = Ok a0 /\
    base a0 = base a /\
    length (cells a0) = length (cells a) /\
    (forall n, Z.of_nat n < size / CACHELINE -> ptr <$> cells a0 !! n = Some NULL).
Proof.
  intros Hs Hc. unfold memset0, CACHELINE in *.
  pose proof (Z.mul_succ_div_gt size 64 ltac:(lia)) as Hgt.
  pose proof (Z.mul_div_le size 64 ltac:(lia)) as Hle.
  destruct (Z.leb_spec size (64 * capacity a)); [|lia].
  eexists. split; [done|]. simpl. split; [done|]. split; [by rewrite length_imap|].
  intros n Hn. rewrite list_lookup_imap.
  destruct (lookup_lt_is_Some_2 (cells a) n) as [c Hcell]; [unfold capacity in *; lia|].
  rewrite Hcell. simpl. unfold zero_low_bytes, PTR_SIZE.
  destruct (Z.leb_spec (size - 64 * Z.of_nat n) 0); [lia|].
  destruct (Z.leb_spec 8 (size - 64 * Z.of_nat n)); [done|lia].
Qed.

Lemma load_ptr_in_range (a : arena) (j : Z) :
  0 <= j < capacity a ->
  exists c, cells a !! Z.to_nat j = Some c /\ load_ptr a (addr a j) = Ok (ptr c).
Proof.
  intros Hj. unfold capacity in Hj.
  destruct (lookup_lt_is_Some_2 (cells a) (Z.to_nat j)) as [c Hc]; [lia|].
  exists c. split; [done|]. rewrite <- (load_ptr_addr _ _ _ Hc). by rewrite Z2Nat.id by lia.
Qed.

(** The scan stops on a free node provided one lies ahead of [j] in scan
    order: at or after [j], or before [j] once the scan has gone past
    index [count] and wrapped.  Every index it reads lies in
    [0 .. count]. *)
Lemma scan_finds (fuel : nat) (a : arena) (count : Z) :
  0 <= count < capacity a ->
  forall (j : Z) (probes : list Z),
    0 <= j <= count ->
    (exists f, j <= f <= count /\ load_ptr a (addr a f) = Ok NULL /\ f - j < Z.of_nat fuel) \/
    (exists f, 0 <= f < j /\ load_ptr a (addr a f) = Ok NULL /\
               count - j + 1 + f < Z.of_nat fuel) ->
    exists j' extra,
      scan fuel a count j probes = Ok (j', probes ++ extra) /\
      0 <= j' <= count /\ load_ptr a (addr a j') = Ok NULL /\
      Forall (fun x => 0 <= x <= count) extra.
Proof.
  intros Hc. induction fuel as [|fuel IH]; intros j probes Hj Hfree.
  { destruct Hfree as [(f & ? & _ & ?)|(f & ? & _ & ?)]; lia. }
  destruct (load_ptr_in_range a j ltac:(lia)) as (c & _ & Hload).
  simpl. rewrite Hload. simpl.
  destruct (Z.eqb_spec (ptr c) NULL) as [Hnull|Hnn].
  { exists j, [j]. rewrite Hnull in Hload. repeat split; try done; try lia.
    constructor; [lia|constructor]. }
  assert (forall f, load_ptr a (addr a f) = Ok NULL -> f <> j) as Hne.
  { intros f Hf ->. congruence. }
  destruct (IH (if j >=? count then 0 else j + 1) (probes ++ [j]))
    as (j' & extra & Hscan & Hj' & Hnull & Hall).
  { destruct (Z.geb_spec j count); lia. }
  { destruct Hfree as [(f & Hf & Hl & Hfuel)|(f & Hf & Hl & Hfuel)];
      pose proof (Hne f Hl); destruct (Z.geb_spec j count).
    - lia.
    - left. exists f. repeat split; try done; lia.
    - left. exists f. repeat split; try done; lia.
    - right. exists f. repeat split; try done; lia. }
  exists j', (j :: extra). rewrite Hscan. repeat split; try done; try lia.
  - by rewrite <- app_assoc.
  - constructor; [lia|done].
Qed.

Lemma chain_snoc (a : arena) (front : list nat) (pn : nat) (last : Z) :
  chain a (front ++ [pn]) last
  <-> chain a front (addr a (Z.of_nat pn)) /\ ptr <$> cells a !! pn = Some last.
Proof.
  induction front as [|n front IH]; simpl.
  - tauto.
  - rewrite IH. destruct front; simpl; tauto.
Qed.

Lemma chain_ext (a a' : arena) (ns : list nat) (last : Z) :
  base a' = base a ->
  (forall n, n ∈ ns -> ptr <$> cells a' !! n = ptr <$> cells a !! n) ->
  chain a ns last -> chain a' ns last.
Proof.
  intros Hb. induction ns as [|n ns IH]; simpl; [done|].
  intros Hsame [Hn Hrest]. split.
  - rewrite Hsame by (left). rewrite Hn. unfold addr. by rewrite Hb.
  - apply IH; [|done]. intros m Hm. apply Hsame. by right.
Qed.

Lemma chain_nonnull (a : arena) (ns : list nat) (last : Z) (n : nat) :
  0 < base a -> last <> NULL -> chain a ns last -> n ∈ ns ->
  exists v, ptr <$> cells a !! n = Some v /\ v <> NULL.
Proof.
  intros Hb Hl. induction ns as [|m ns IH]; simpl; intros Hch Hin.
  - by apply elem_of_nil in Hin.
  - destruct Hch as [Hm Hrest]. apply elem_of_cons in Hin as [->|Hin]; [|by apply IH].
    eexists. split; [exact Hm|]. destruct ns; [done|].
    unfold addr, NULL, CACHELINE. lia.
Qed.

Lemma read_step_addr (a : arena) (n : nat) (c : struct_s) (log : list Z) :
  cells a !! n = Some c ->
  read_step a (addr a (Z.of_nat n), log) = Ok (ptr c, log ++ [addr a (Z.of_nat n)]).
Proof. intros Hc. unfold read_step. by rewrite (load_ptr_addr _ _ _ Hc). Qed.

Lemma iterM_S {St : Type} (n : nat) (body : St -> outcome St) (st st' : St) :
  body st = Ok st' -> iterM (S n) body st = iterM n body st'.
Proof. intros H. simpl. by rewrite H. Qed.

(** Following a chain passes its nodes in order and ends on [last]. *)
Lemma chain_walk (a : arena) (ns : list nat) (n : nat) (last : Z) (log : list Z) :
  chain a (n :: ns) last ->
  iterM (S (length ns)) (read_step a) (addr a (Z.of_nat n), log)
  = Ok (last, log ++ ((fun m => addr a (Z.of_nat m)) <$> (n :: ns))).
Proof.
  revert n log. induction ns as [|m ns IH]; intros n log [Hn Hrest];
    destruct (cells a !! n) as [c|] eqn:Hc; try discriminate;
    injection Hn as Hn; rewrite (iterM_S _ _ _ _ (read_step_addr _ _ _ log Hc)), Hn.
  - done.
  - rewrite (IH m _ Hrest). by rewrite <- app_assoc.
Qed.

(** Fewer linked nodes than the working set has: one of the first
    [count] nodes is not linked yet. *)
Lemma free_node_exists (ns : list nat) (count : nat) :
  NoDup ns -> (length ns < count)%nat -> exists f, (f < count)%nat /\ f ∉ ns.
Proof.
  intros Hnd Hlen.
  destruct (decide (Forall (fun f => f ∈ ns) (seq 0 count))) as [Hall|Hex].
  - exfalso. rewrite List.Forall_forall in Hall.
    assert (seq 0 count ⊆+ ns) as Hsub.
    { apply NoDup_submseteq; [apply NoDup_seq|]. intros x Hx. apply Hall.
      by apply list_elem_of_In. }
    apply submseteq_length in Hsub. rewrite length_seq in Hsub. lia.
  - apply not_Forall_Exists in Hex; [|apply _].
    apply List.Exists_exists in Hex as (f & Hin & Hf).
    apply in_seq in Hin. exists f. split; [lia|done].
Qed.

(** One iteration of the random loop, from the arena [a0] that
    [memset] left with the first [count] nodes free. *)
Section random_loop.

Context (fuel : nat) (rnd : nat -> Z) (count : Z) (a0 : arena) (calls0 : nat).
Hypothesis Hbase : 0 < base a0.
Hypothesis Hcap : count < capacity a0.
Hypothesis Hrnd : forall n, 0 <= rnd n.
Hypothesis Hfuel : count < Z.of_nat fuel.
Hypothesis Hzero : forall n, Z.of_nat n < count -> ptr <$> cells a0 !! n = Some NULL.

Lemma link_random_step (i : Z) (st : prep_state) :
  0 <= i < count - 1 ->
  rand_inv a0 count calls0 i st ->
  exists st', link_random fuel rnd count i st = Ok st' /\ rand_inv a0 count calls0 (i + 1) st'.
Proof.
  intros Hi
    (front & pn & Hb & Hl & Hlen & Hnd & Hhd & Hrange & Hp & Hch & Hrest & Hcalls & Hprobes).
  destruct st as [a p calls probes]. simpl in *. subst p.
  assert (forall k, addr a k = addr a0 k) as Haddr by (intros; unfold addr; by rewrite Hb).
  assert (pn ∈ front ++ [pn]) as Hpn_in by (apply elem_of_app; right; by left).
  assert (pn ∉ front) as Hpn_front.
  { apply list.NoDup_app in Hnd as (_ & Hdisj & _). intros Hin. apply (Hdisj pn Hin). by left. }
  destruct (Hrange pn Hpn_in) as [Hpn_le _].
  destruct (lookup_lt_is_Some_2 (cells a) pn) as [c Hc]; [unfold capacity in *; lia|].
  apply chain_snoc in Hch as [Hfront Hpnull].
  (* p->ptr = (struct s* )1 *)
  unfold link_random. simpl. rewrite <- (Haddr (Z.of_nat pn)).
  rewrite (store_ptr_addr _ _ _ _ Hc).
  set (a1 := {| base := base a;
                cells := <[pn := {| ptr := MARK; dummy := dummy c |}]> (cells a) |}).
  assert (cells a1 !! pn = Some {| ptr := MARK; dummy := dummy c |}) as Hc1.
  { simpl. apply list_lookup_insert_eq. by eapply lookup_lt_Some. }
  assert (forall n, n <> pn -> cells a1 !! n = cells a !! n) as Hother1.
  { intros n Hn. simpl. by apply list_lookup_insert_ne. }
  assert (forall k, addr a1 k = addr a k) as Haddr1 by done.
  (* a node of the working set is still free *)
  destruct (free_node_exists (front ++ [pn]) (Z.to_nat count) Hnd) as (f & Hf & Hfn).
  { rewrite length_app. simpl. lia. }
  assert (load_ptr a1 (addr a1 (Z.of_nat f)) = Ok NULL) as Hfree.
  { pose proof (Hzero f ltac:(lia)) as Hz. rewrite <- (Hrest f Hfn) in Hz.
    destruct (cells a !! f) as [cf|] eqn:Hcf; [|discriminate]. injection Hz as Hz.
    assert (cells a1 !! f = Some cf) as Hcf1.
    { rewrite Hother1; [done|]. intros ->. by apply Hfn. }
    rewrite (load_ptr_addr _ _ _ Hcf1). by rewrite Hz. }
  (* the scan *)
  pose proof (Z.rem_bound_pos (rnd calls) count (Hrnd _) ltac:(lia)) as Hj0.
  destruct (scan_finds fuel a1 count) with (j := Z.rem (rnd calls) count) (probes := probes)
    as (j' & extra & Hscan & Hj' & Hnull & Hextra).
  { unfold capacity in *. simpl. rewrite length_insert. lia. }
  { lia. }
  { destruct (Z.le_gt_cases (Z.rem (rnd calls) count) (Z.of_nat f)); [left|right];
      exists (Z.of_nat f); repeat split; try done; lia. }
  simpl. rewrite Hscan. simpl.
  apply load_ptr_Ok in Hnull as (jn & cj & Hjeq & Hcj & Hptr).
  apply addr_inj in Hjeq. subst j'.
  assert (jn <> pn) as Hjpn.
  { intros ->. rewrite Hc1 in Hcj. injection Hcj as <-. simpl in Hptr. discriminate. }
  assert (jn ∉ front) as Hjfront.
  { intros Hin.
    destruct (chain_nonnull a front (addr a (Z.of_nat pn)) jn) as (v & Hv & Hvn); try done.
    - lia.
    - unfold addr, NULL, CACHELINE. lia.
    - rewrite <- Hother1, Hcj in Hv by done. simpl in Hv. congruence. }
  assert (jn ∉ front ++ [pn]) as Hjn.
  { intros Hin. apply elem_of_app in Hin as [Hin|Hin]; [done|].
    by apply list_elem_of_singleton in Hin. }
  (* p = p->ptr = &array[j] *)
  rewrite <- Haddr1, (store_ptr_addr _ _ _ _ Hc1). simpl.
  eexists. split; [reflexivity|].
  exists (front ++ [pn]), jn. simpl.
  split; [done|]. split; [by rewrite !length_insert|].
  split; [rewrite length_app; simpl; lia|].
  split.
  { apply list.NoDup_app. split; [done|]. split; [|apply NoDup_singleton].
    intros x Hx Hx'. apply list_elem_of_singleton in Hx' as ->. done. }
  split; [by destruct front|].
  split.
  { intros n Hn. apply elem_of_app in Hn as [Hn|Hn]; [by apply Hrange|].
    apply list_elem_of_singleton in Hn as ->. split; [lia|]. intros _.
    rewrite <- (Hrest jn Hjn), <- Hother1, Hcj by done. simpl. by rewrite Hptr. }
  split; [by rewrite Haddr1, Haddr|].
  split.
  { apply chain_snoc. split.
    - apply chain_snoc. split.
      + apply (chain_ext a); [done| |done].
        intros n Hn. simpl. rewrite !list_lookup_insert_ne; [done| |]; by intros ->.
      + cbn [cells].
        rewrite list_lookup_insert_eq by (rewrite length_insert; by eapply lookup_lt_Some).
        done.
    - cbn [cells]. rewrite list_lookup_insert_ne by done.
      change (ptr <$> cells a1 !! jn = Some NULL). rewrite Hcj. simpl. by rewrite Hptr. }
  split.
  { intros n Hn. rewrite list_lookup_insert_ne.
    - change (cells a1 !! n = cells a0 !! n). rewrite Hother1.
      + apply Hrest. intros Hin. apply Hn. apply elem_of_app. by left.
      + intros ->. apply Hn. apply elem_of_app. by left.
    - intros ->. apply Hn. apply elem_of_app. by left. }
  split; [lia|].
  apply list.Forall_app. split; [done|]. done.
Qed.

End random_loop.

(** The random branch of [prepare], for a working set of [count >= 1]
    nodes that leaves at least one node of the arena unused.  With fuel
    above [count] it returns after [count - 1] calls of [rand()]; the
    nodes [ns] it has linked are [count] distinct nodes that start with
    node 0 and lie among the first [count + 1] -- node [count] can be one
    of them only if [memset] left its [ptr] NULL --; following [ptr]
    from node 0 passes them in order and returns to node 0; and every
    index the scans have read lies in [0 .. count]. *)
Lemma prepare_random_spec (fuel : nat) (rnd : nat -> Z) (calls : nat)
    (a : arena) (size : Z) :
  0 < base a -> 0 <= size ->
  1 <= size / CACHELINE < capacity a ->
  (forall n, 0 <= rnd n) ->
  size / CACHELINE < Z.of_nat fuel ->
  exists a0 a' probes ns,
    memset0 a size = Ok a0 /\
    prepare fuel rnd calls a size false
      = Ok {| pr_arena := a';
              pr_calls := (calls + Z.to_nat (size / CACHELINE - 1))%nat;
              pr_probes := probes |} /\
    base a' = base a /\
    length (cells a') = length (cells a) /\
    length ns = Z.to_nat (size / CACHELINE) /\
    NoDup ns /\
    head ns = Some 0%nat /\
    (forall n, n ∈ ns ->
               Z.of_nat n <= size / CACHELINE /\
               (Z.of_nat n = size / CACHELINE -> ptr <$> cells a0 !! n = Some NULL)) /\
    chain a' ns (addr a' 0) /\
    iterM (Z.to_nat (size / CACHELINE)) (read_step a') (addr a' 0, [])
      = Ok (addr a' 0, (fun m => addr a' (Z.of_nat m)) <$> ns) /\
    Forall (fun j => 0 <= j <= size / CACHELINE) probes.
Proof.
  set (count := size / CACHELINE). intros Hbase Hsize Hcount Hrnd Hfuel.
  destruct (memset0_spec a size Hsize ltac:(fold count; lia)) as (a0 & Hms & Hb0 & Hl0 & Hzero).
  fold count in Hzero.
  destruct (for_count_inv (rand_inv a0 count calls) (link_random fuel rnd count)
              (Z.to_nat (count - 1 - 0)) 0
              {| ps_arena := a0; ps_p := addr a0 0; ps_calls := calls; ps_probes := [] |})
    as (st & Hloop & Hinv).
  { exists [], 0%nat. simpl.
    split; [done|]. split; [done|]. split; [done|]. split; [apply NoDup_singleton|].
    split; [done|]. split.
    { intros n Hn. apply list_elem_of_singleton in Hn as ->. lia. }
    split; [done|]. split; [split; [apply (Hzero 0%nat); lia|done]|].
    split; [done|]. split; [lia|done]. }
  { intros j s Hj Hinv.
    apply (link_random_step fuel rnd count a0 calls);
      [rewrite Hb0; lia|unfold capacity in *; rewrite Hl0; lia|done|lia|done|lia|done]. }
  replace (0 + Z.of_nat (Z.to_nat (count - 1 - 0))) with (count - 1) in Hinv by lia.
  destruct Hinv as
    (front & pn & Hb & Hl & Hlen & Hnd & Hhd & Hrange & Hp & Hch & Hrest & Hcalls & Hprobes).
  destruct st as [a1 p calls1 probes]. simpl in *. subst p.
  assert (forall k, addr a1 k = addr a0 k) as Haddr by (intros; unfold addr; by rewrite Hb).
  assert (pn ∈ front ++ [pn]) as Hpn_in by (apply elem_of_app; right; by left).
  assert (pn ∉ front) as Hpn_front.
  { apply list.NoDup_app in Hnd as (_ & Hdisj & _). intros Hin. apply (Hdisj pn Hin). by left. }
  destruct (Hrange pn Hpn_in) as [Hpn_le _].
  destruct (lookup_lt_is_Some_2 (cells a1) pn) as [c Hc]; [unfold capacity in *; lia|].
  apply chain_snoc in Hch as [Hfront _].
  set (a' := {| base := base a1;
                cells := <[pn := {| ptr := addr a1 0; dummy := dummy c |}]> (cells a1) |}).
  assert (chain a' (front ++ [pn]) (addr a' 0)) as Hchain.
  { apply chain_snoc. split.
    - apply (chain_ext a1); [done| |done].
      intros n Hn. cbn [cells a']. rewrite list_lookup_insert_ne; [done|]. by intros ->.
    - cbn [cells a']. rewrite list_lookup_insert_eq by (by eapply lookup_lt_Some). done. }
  exists a0, a', probes, (front ++ [pn]).
  split; [done|]. split.
  { unfold prepare, for_loop. fold count. rewrite Hms. simpl. rewrite Hloop. simpl.
    rewrite <- (Haddr (Z.of_nat pn)), (store_ptr_addr _ _ _ _ Hc). simpl.
    by rewrite Hcalls. }
  split; [simpl; congruence|]. split; [simpl; rewrite length_insert; congruence|].
  split; [rewrite length_app; simpl; lia|].
  split; [done|]. split; [done|]. split; [done|]. split; [done|]. split; [|done].
  destruct (front ++ [pn]) as [|n0 rest] eqn:Hns; [discriminate|].
  injection Hhd as ->.
  replace (Z.to_nat count) with (S (length rest)).
  - exact (chain_walk a' rest 0 (addr a' 0) [] Hchain).
  - apply (f_equal length) in Hns. rewrite length_app in Hns. simpl in Hns. lia.
Qed.

(** When [memset] leaves a non-NULL [ptr] in node [count] (the node was
    linked by an earlier, larger run and [size] is a multiple of 64),
    the random branch builds a single cycle through exactly the working
    set. *)
Lemma prepare_random_single_cycle (fuel : nat) (rnd : nat -> Z) (calls : nat)
    (a a0 : arena) (size : Z) :
  0 < base a -> 0 <= size ->
  1 <= size / CACHELINE < capacity a ->
  (forall n, 0 <= rnd n) ->
  size / CACHELINE < Z.of_nat fuel ->
  memset0 a size = Ok a0 ->
  ptr <$> cells a0 !! Z.to_nat (size / CACHELINE) <> Some NULL ->
  exists r cycle,
    prepare fuel rnd calls a size false = Ok r /\
    single_cycle (pr_arena r) (size / CACHELINE) cycle.
Proof.
  intros Hbase Hsize Hcount Hrnd Hfuel Hms Hsent.
  destruct (prepare_random_spec fuel rnd calls a size Hbase Hsize Hcount Hrnd Hfuel)
    as (a0' & a' & probes & ns & Hms' & Hp & _ & _ & _ & Hnd & _ & Hrange & _ & Hwalk & _).
  rewrite Hms in Hms'. injection Hms' as <-.
  eexists _, _. split; [exact Hp|]. simpl. split; [exact Hwalk|]. split.
  - apply (NoDup_fmap_2_strong (fun m => addr a' (Z.of_nat m))); [|done].
    intros x y _ _ E. apply addr_inj in E. lia.
  - intros p Hin. apply list_elem_of_fmap in Hin as (n & -> & Hn).
    destruct (Hrange n Hn) as [Hle Hnull]. exists (Z.of_nat n). split; [|done].
    split; [lia|]. destruct (decide (Z.of_nat n = size / CACHELINE)) as [E|]; [|lia].
    exfalso. apply Hsent. rewrite <- E, Nat2Z.id. by apply Hnull.
Qed.

(** ** The traversal returns on any chain that closes on node 0 *)

Lemma closed_walk_chase (a : arena) (n : nat) (cycle : list Z) (N : nat) :
  closes a n cycle ->
  exists q v, iterM N (read_step a) (addr a 0, []) = Ok (q, v) /\ length v = N.
Proof.
  intros [Hn Hw]. pose proof (cycle_passes a n cycle N Hw) as Hp.
  replace (N * n)%nat with (N + (N * n - N))%nat in Hp by nia.
  apply iterM_prefix in Hp as ([q v] & Hp & _).
  exists q, v. split; [done|]. by apply read_log_length in Hp.
Qed.

(** [do_read] on a closed chain: with enough fuel it returns, having
    followed [32 * batches reads] pointers. *)
Lemma do_read_returns (fuel : nat) (a : arena) (n : nat) (cycle : list Z) (reads : Z) :
  closes a n cycle ->
  batches reads < Z.of_nat fuel ->
  exists p visited,
    do_read fuel a reads = Ok (p, visited) /\ steps visited = 32 * batches reads.
Proof.
  intros Hcl Hf. pose proof (batches_range reads).
  rewrite do_read_iterM by done.
  destruct (closed_walk_chase a n cycle (Z.to_nat (32 * batches reads)) Hcl)
    as (q & v & Hr & Hlen).
  exists q, v. split; [done|]. unfold steps. rewrite Hlen. lia.
Qed.

Lemma do_write_returns (fuel : nat) (a : arena) (n : nat) (cycle : list Z)
    (accesses ofs : Z) :
  closes a n cycle ->
  0 <= ofs < DUMMY_LEN ->
  batches accesses < Z.of_nat fuel ->
  exists a' p visited,
    do_write fuel a accesses ofs = Ok (a', p, visited) /\
    steps visited = 32 * batches accesses /\ bumped ofs a visited a'.
Proof.
  intros Hcl Ho Hf. pose proof (batches_range accesses).
  rewrite do_write_iterM by done.
  destruct (closed_walk_chase a n cycle (Z.to_nat (32 * batches accesses)) Hcl)
    as (q & v & Hr & Hlen).
  destruct (write_steps_spec ofs _ Ho a _ _ _ [] Hr) as (a' & Hwr & Hb).
  exists a', q, v. split; [done|]. split; [|done]. unfold steps. rewrite Hlen. lia.
Qed.

(** [prepare] returns a chain that closes on node 0 after [count]
    steps, in either mode. *)
Lemma prepare_closes (fuel : nat) (rnd : nat -> Z) (calls : nat) (a : arena)
    (size : Z) (seq_mode : bool) :
  0 < base a -> 0 <= size -> 1 <= size / CACHELINE ->
  (if seq_mode then size / CACHELINE <= capacity a else size / CACHELINE < capacity a) ->
  (forall n, 0 <= rnd n) ->
  size / CACHELINE < Z.of_nat fuel ->
  exists r cycle,
    prepare fuel rnd calls a size seq_mode = Ok r /\
    closes (pr_arena r) (Z.to_nat (size / CACHELINE)) cycle.
Proof.
  intros Hbase Hsize Hc Hcap Hrnd Hfuel. destruct seq_mode.
  - destruct (prepare_sequential_single_cycle fuel rnd calls a size ltac:(lia))
      as (a' & Hp & _ & _ & Hw & _).
    eexists _, _. split; [exact Hp|]. split; [lia|exact Hw].
  - destruct (prepare_random_spec fuel rnd calls a size Hbase Hsize ltac:(lia) Hrnd Hfuel)
      as (a0 & a' & probes & ns & _ & Hp & _ & _ & _ & _ & _ & _ & _ & Hw & _).
    eexists _, _. split; [exact Hp|]. split; [lia|exact Hw].
Qed.

Lemma seq4_closes : closes seq4 4 seq4_cycle.
Proof. split; [lia|]. vm_compute. reflexivity. Qed.

(** Whenever the worker returns, [me->result] is the quotient of the
    elapsed count by [cfg->read_count]. *)
Lemma worker_result_formula (fuel : nat) (ar : arch) (env : worker_env) (c : cfg)
    (cpu : Z) (array : list arena) (r : worker_run) :
  benchmark_thread fuel ar env c cpu array = Ok r ->
  w_tic r = get_time ar c (tic_clock env) /\
  w_tac r = get_time ar c (tac_clock env) /\
  w_result r = double_div (to_double (wrap64 (w_tac r - w_tic r)))
                          (to_double (read_count c)).
Proof.
  unfold benchmark_thread. intros H.
  destruct (negb (affinity_ok env)); [discriminate|].
  destruct (array !! Z.to_nat cpu) as [a|]; [|discriminate].
  apply bind_Ok in H as (r0 & _ & H). apply bind_Ok in H as ([a' v] & _ & H).
  injection H as <-. done.
Qed.

(** * The claims *)

(** ** Cycle generation *)

(** C1, on zeroed storage with a working set of three nodes (192 bytes)
    and [rand() % 3 == 2] twice.  Node 0 is linked to node 2; the second
    scan starts at the occupied node 2, moves on to index 3, finds its
    [ptr] NULL and links it.  The chain from node 0 is 0, 2, 3 and back:
    node 3 lies outside the working set and node 1 is left out of the
    chain, its [ptr] still NULL. *)
Theorem prepare_random_leaves_working_set :
  exists a',
    prepare 4 rand_2 0 zeroed5 192 false
      = Ok {| pr_arena := a'; pr_calls := 2; pr_probes := [2; 2; 3] |} /\
    iterM 3 (read_step a') (addr a' 0, [])
      = Ok (addr a' 0, [addr a' 0; addr a' 2; addr a' 3]) /\
    load_ptr a' (addr a' 1) = Ok NULL /\
    forall cycle, ~ single_cycle a' (192 / CACHELINE) cycle.
Proof.
  eexists. split; [vm_compute; reflexivity|]. split; [vm_compute; reflexivity|].
  split; [vm_compute; reflexivity|].
  intros cycle (Hwalk & _ & Hin).
  vm_compute in Hwalk. injection Hwalk as <-.
  destruct (Hin 2097344) as (k & Hk & Heq).
  { apply list_elem_of_In. simpl. auto. }
  change (192 / CACHELINE) with 3 in Hk.
  unfold addr, CACHELINE in Heq. simpl in Heq. lia.
Qed.

(** C7.  For every working set of [count >= 1] nodes that fits the arena,
    sequential-mode [prepare] consumes no random number, does not depend on
    the fuel or on the random sequence, and leaves [array[i].ptr ==
    &array[i+1]] for every [i < count - 1] and [array[count-1].ptr ==
    &array[0]]. *)
Theorem prepare_sequential_next (fuel : nat) (rnd : nat -> Z) (calls : nat)
    (a : arena) (size : Z) :
  1 <= size / CACHELINE <= capacity a ->
  exists a',
    prepare fuel rnd calls a size true
      = Ok {| pr_arena := a'; pr_calls := calls; pr_probes := [] |} /\
    (forall fuel' rnd', prepare fuel' rnd' calls a size true
                         = prepare fuel rnd calls a size true) /\
    (forall i, 0 <= i < size / CACHELINE - 1 ->
               load_ptr a' (addr a' i) = Ok (addr a' (i + 1))) /\
    load_ptr a' (addr a' (size / CACHELINE - 1)) = Ok (addr a' 0).
Proof.
  intros Hc.
  destruct (prepare_sequential_spec fuel rnd calls a size Hc)
    as (a' & Hp & Hb & Hl & _ & _ & Hnext & Hlast).
  exists a'. split; [done|]. split; [done|]. split.
  - intros i Hi. specialize (Hnext (Z.to_nat i)). rewrite Z2Nat.id in Hnext by lia.
    specialize (Hnext ltac:(lia)).
    destruct (cells a' !! Z.to_nat i) as [c|] eqn:E; [|discriminate].
    injection Hnext as Hnext.
    index_as_nat a' i.
    rewrite (load_ptr_addr _ _ _ E). unfold addr in *. by rewrite Hnext, Hb.
  - destruct (cells a' !! Z.to_nat (size / CACHELINE - 1)) as [c|] eqn:E; [|discriminate].
    injection Hlast as Hlast.
    index_as_nat a' (size / CACHELINE - 1).
    rewrite (load_ptr_addr _ _ _ E). unfold addr in *. by rewrite Hlast, Hb.
Qed.

Lemma prepare_sequential_next_witness :
  1 <= 256 / CACHELINE <= capacity zeroed5 /\
  exists a',
    prepare 0 rand_2 0 zeroed5 256 true
      = Ok {| pr_arena := a'; pr_calls := 0%nat; pr_probes := [] |} /\
    (forall fuel' rnd', prepare fuel' rnd' 0 zeroed5 256 true
                         = prepare 0 rand_2 0 zeroed5 256 true) /\
    (forall i, 0 <= i < 256 / CACHELINE - 1 ->
               load_ptr a' (addr a' i) = Ok (addr a' (i + 1))) /\
    load_ptr a' (addr a' (256 / CACHELINE - 1)) = Ok (addr a' 0).
Proof.
  assert (1 <= 256 / CACHELINE <= capacity zeroed5) as H
    by (vm_compute; split; discriminate).
  split; [exact H|].
  exact (prepare_sequential_next 0 rand_2 0 zeroed5 256 H).
Defined.

(** C10, on the input of C1.  The second scan reads [array[2].ptr] and
    then [array[3].ptr]: index [3 = count] is probed. *)
Theorem scan_probes_index_count :
  exists r,
    prepare 4 rand_2 0 zeroed5 192 false = Ok r /\
    pr_probes r = [2; 2; 3] /\
    192 / CACHELINE = 3 /\
    ~ Forall (fun j => j < 192 / CACHELINE) (pr_probes r).
Proof.
  eexists. split; [vm_compute; reflexivity|]. split; [reflexivity|].
  split; [reflexivity|].
  simpl. intros H. rewrite List.Forall_forall in H.
  specialize (H 3 ltac:(simpl; auto)). vm_compute in H. discriminate.
Qed.

(** ** Traversal *)

(** C2, at [op_count = 64].  The counter starts at [64 / 32 = 2], the
    first [--i] leaves [1], one batch runs, the second [--i] leaves [0]:
    [do_read] follows 32 pointers, not [64 / 32 * 32 = 64]. *)
Theorem do_read_64_one_batch :
  batches 64 = 1 /\
  do_read 2 seq4 64 = Ok (addr seq4 0, passes 8 seq4_cycle) /\
  steps (passes 8 seq4_cycle) = 32 /\
  steps (passes 8 seq4_cycle) <> 64 / 32 * 32.
Proof. repeat split. vm_compute. discriminate. Qed.

(** C8.  With [op_count = 32] the counter starts at [32 / 32 = 1], the
    first [--i] makes it [0], and [do_read] returns with the cursor still
    on node 0 and no pointer followed: zero batches. *)
Theorem do_read_32_no_batch :
  batches 32 = 0 /\
  forall (fuel : nat) (a : arena), do_read (S fuel) a 32 = Ok (addr a 0, []).
Proof. split; [reflexivity|]. intros fuel a. reflexivity. Qed.

(** C9.  For every requested count below 32 the counter starts at [0],
    the first [--i] wraps it to [2^32 - 1], and both loops then run
    [2^32 - 1] batches: on a chain that closes on node 0, [do_read] and
    [do_write] return after [32 * (2^32 - 1)] steps, not after none. *)
Theorem small_count_wraps (fuel : nat) (a : arena) (n : nat) (cycle : list Z)
    (reads ofs : Z) :
  closes a n cycle -> 0 <= ofs < DUMMY_LEN ->
  0 <= reads < 32 -> 2 ^ 32 <= Z.of_nat fuel ->
  reads / 32 = 0 /\ batches reads = 2 ^ 32 - 1 /\
  (exists p visited,
      do_read fuel a reads = Ok (p, visited) /\
      steps visited = 32 * (2 ^ 32 - 1) /\ steps visited <> 0) /\
  (exists a' p visited,
      do_write fuel a reads ofs = Ok (a', p, visited) /\
      steps visited = 32 * (2 ^ 32 - 1) /\ steps visited <> 0).
Proof.
  intros Hcl Ho Hr Hf. pose proof (batches_lt32 reads Hr) as Hb.
  split; [by apply Z.div_small|]. split; [done|]. split.
  - destruct (do_read_returns fuel a n cycle reads Hcl) as (p & v & Hd & Hs); [lia|].
    exists p, v. rewrite Hs, Hb. split; [done|]. split; lia.
  - destruct (do_write_returns fuel a n cycle reads ofs Hcl Ho) as (a' & p & v & Hd & Hs & _);
      [lia|].
    exists a', p, v. rewrite Hs, Hb. split; [done|]. split; lia.
Qed.

Lemma small_count_wraps_witness :
  5 / 32 = 0 /\ batches 5 = 2 ^ 32 - 1 /\
  (exists p visited,
      do_read (Z.to_nat (2 ^ 32)) seq4 5 = Ok (p, visited) /\
      steps visited = 32 * (2 ^ 32 - 1) /\ steps visited <> 0) /\
  (exists a' p visited,
      do_write (Z.to_nat (2 ^ 32)) seq4 5 3 = Ok (a', p, visited) /\
      steps visited = 32 * (2 ^ 32 - 1) /\ steps visited <> 0).
Proof.
  apply (small_count_wraps (Z.to_nat (2 ^ 32)) seq4 4 seq4_cycle 5 3).
  - exact seq4_closes.
  - vm_compute. split; [discriminate|reflexivity].
  - lia.
  - rewrite Z2Nat.id; lia.
Defined.

(** C5.  For every offset inside the padding and every cycle over the
    first [count >= 1] nodes, a run of [do_write] returns and leaves the
    [ptr] of every node as it was; and for every [k] such that the run
    is at least [k] passes long, the run goes through the state reached
    after [k * count] steps, where the cursor is back at node 0, every
    [ptr] is unchanged, and in each of the [count] nodes word [ofs] of
    [dummy] has been incremented [k] times (as a [uint32_t]) while the other
    words are untouched. *)
Theorem do_write_passes (fuel : nat) (a : arena) (count accesses ofs : Z) (cycle : list Z) :
  0 <= ofs < DUMMY_LEN -> 1 <= count ->
  wf_arena a -> single_cycle a count cycle ->
  batches accesses < Z.of_nat fuel ->
  exists a' p visited,
    do_write fuel a accesses ofs = Ok (a', p, visited) /\
    same_links a a' /\
    forall k : nat, Z.of_nat k * count <= 32 * batches accesses ->
      exists a_k log_k,
        iterM (k * Z.to_nat count) (write_step ofs) (a, addr a 0, [])
          = Ok (a_k, addr a 0, log_k) /\
        iterM (Z.to_nat (32 * batches accesses) - k * Z.to_nat count) (write_step ofs)
              (a_k, addr a 0, log_k)
          = Ok (a', p, visited) /\
        same_links a a_k /\
        forall n c, Z.of_nat n < count -> cells a !! n = Some c ->
          exists c', cells a_k !! n = Some c' /\ ptr c' = ptr c /\
            forall w d, dummy c !! w = Some d ->
              dummy c' !! w
              = Some (if decide (w = Z.to_nat ofs) then wrap32 (d + Z.of_nat k) else d).
Proof.
  intros Ho Hc Hwf Hcyc Hf. pose proof (batches_range accesses) as Hb.
  rewrite do_write_iterM by done.
  set (N := Z.to_nat (32 * batches accesses)).
  destruct (single_cycle_chase a count cycle N Hc Hcyc) as (q & v & Hread).
  destruct (write_steps_spec ofs N Ho a (addr a 0) q v [] Hread) as (a' & Hw & Hbump).
  exists a', q, v. split; [exact Hw|]. split; [by eapply bumped_same_links|].
  intros k Hk.
  assert (k * Z.to_nat count <= N)%nat as Hle by (unfold N; nia).
  pose proof Hcyc as (Hwalk & _ & _).
  pose proof (cycle_passes a (Z.to_nat count) cycle k Hwalk) as Hpass.
  destruct (write_steps_spec ofs _ Ho a (addr a 0) _ _ [] Hpass) as (a_k & Hwk & Hbk).
  exists a_k, (passes k cycle). split; [exact Hwk|]. split; [|split].
  - replace N with (k * Z.to_nat count + (N - k * Z.to_nat count))%nat in Hw by lia.
    rewrite iterM_add, Hwk in Hw. exact Hw.
  - by eapply bumped_same_links.
  - intros n c Hn Hcell. destruct Hbk as (_ & _ & Hcells).
    rewrite Hcells, Hcell, count_occ_passes, (single_cycle_covers _ _ _ _ Hcyc Hn).
    rewrite Nat.mul_1_r. eexists. split; [done|]. split; [done|].
    intros w d Hd. simpl. rewrite list_lookup_alter.
    destruct (Hwf n c Hcell) as [_ Hrange].
    destruct (decide (Z.to_nat ofs = w)) as [<-|Hne].
    + rewrite Hd. simpl. rewrite decide_True by done. f_equal.
      apply iter_incr32. rewrite List.Forall_forall in Hrange. apply Hrange.
      apply list_elem_of_In. by eapply list_elem_of_lookup_2.
    + rewrite decide_False by done. done.
Qed.

Lemma do_write_passes_witness :
  exists a' p visited,
    do_write 2 seq4 64 3 = Ok (a', p, visited) /\
    same_links seq4 a' /\
    forall k : nat, Z.of_nat k * 4 <= 32 * batches 64 ->
      exists a_k log_k,
        iterM (k * Z.to_nat 4) (write_step 3) (seq4, addr seq4 0, [])
          = Ok (a_k, addr seq4 0, log_k) /\
        iterM (Z.to_nat (32 * batches 64) - k * Z.to_nat 4) (write_step 3)
              (a_k, addr seq4 0, log_k)
          = Ok (a', p, visited) /\
        same_links seq4 a_k /\
        forall n c, Z.of_nat n < 4 -> cells seq4 !! n = Some c ->
          exists c', cells a_k !! n = Some c' /\ ptr c' = ptr c /\
            forall w d, dummy c !! w = Some d ->
              dummy c' !! w
              = Some (if decide (w = Z.to_nat 3) then wrap32 (d + Z.of_nat k) else d).
Proof.
  apply (do_write_passes 2 seq4 4 64 3 seq4_cycle).
  - vm_compute. split; [discriminate|reflexivity].
  - lia.
  - exact seq4_wf.
  - exact seq4_single_cycle.
  - vm_compute. reflexivity.
Defined.

(** ** Timing, workers and results *)

(** C3 as worded fails: built for a target other than aarch64, [-y] is
    accepted and the timing source answers [0]. *)
Lemma unsupported_mode_is_silent : ~ unsupported_mode_is_explicit OtherArch.
Proof.
  intros H.
  apply (H [Opt_y] _ {| tv_sec := 12; tv_nsec := 345; PMCCNTR_EL0 := 6789 |} eq_refl eq_refl).
  reflexivity.
Qed.

(** C3, amended.  On a target without a readable counter, adding [-y] to
    an accepted command line gives an accepted configuration in
    cycle-counter mode, and in that mode [get_time] returns [0] whatever
    the hardware shows, so the elapsed count of every worker is [0]. *)
Theorem unsupported_mode_reads_zero (opts : list option_arg) (c : cfg) :
  main_config OtherArch opts = Ok c ->
  (exists c', main_config OtherArch (opts ++ [Opt_y]) = Ok c' /\ use_cycles c' = true) /\
  (forall c' h, use_cycles c' = true -> get_time OtherArch c' h = 0) /\
  (forall c' h0 h1, use_cycles c' = true ->
     wrap64 (get_time OtherArch c' h1 - get_time OtherArch c' h0) = 0).
Proof.
  intros Hm.
  assert (forall c' h, use_cycles c' = true -> get_time OtherArch c' h = 0) as Hz.
  { intros c' h Hy. unfold get_time. by rewrite Hy. }
  split; [|split; [exact Hz|]].
  - unfold main_config in *. rewrite getopt_loop_app.
    apply bind_Ok in Hm as (c0 & Hg & Hcheck). rewrite Hg. simpl.
    destruct (write c0 && negb (ofs c0 <? DUMMY_LEN)); [discriminate|].
    eexists. split; reflexivity.
  - intros c' h0 h1 Hy. by rewrite !Hz.
Qed.

Lemma unsupported_mode_reads_zero_witness :
  main_config OtherArch [] = Ok default_cfg /\
  (exists c', main_config OtherArch ([] ++ [Opt_y]) = Ok c' /\ use_cycles c' = true) /\
  (forall c' h, use_cycles c' = true -> get_time OtherArch c' h = 0) /\
  (forall c' h0 h1, use_cycles c' = true ->
     wrap64 (get_time OtherArch c' h1 - get_time OtherArch c' h0) = 0).
Proof.
  split; [reflexivity|].
  apply (unsupported_mode_reads_zero [] default_cfg). reflexivity.
Defined.

(** C4, at [-t 9 -s 1024].  The options are accepted with
    [num_threads = 9]; the loop of [run_benchmark] fills [thread[0]] to
    [thread[7]] and then writes [thread[8]], one past the table of
    [MAX_CPUS] entries. *)
Theorem nine_threads_overrun_table :
  exists c,
    main_config AArch64 opts_nine_threads = Ok c /\
    num_threads c = 9 /\
    MAX_CPUS = 8 /\
    run_benchmark_spawn c = Trap (OutOfBounds 8).
Proof. eexists. repeat split. Qed.

(** C6.  For every worker and every configuration, if [benchmark_thread]
    returns then [me->result = (double)(tac - tic) / cfg->read_count],
    the two timestamps being the two readings of the timing source and
    the divisor the requested count.  And it does return, after
    [32 * batches read_count] steps rather than [read_count], whenever
    the affinity call succeeds and the working set of at least one node
    fits the arena, in either access pattern and in read or write
    mode. *)
Theorem worker_result_divides_by_requested (fuel : nat) (ar : arch) (env : worker_env)
    (c : cfg) (cpu : Z) (array : list arena) :
  (forall r,
      benchmark_thread fuel ar env c cpu array = Ok r ->
      w_result r
      = double_div
          (to_double (wrap64 (get_time ar c (tac_clock env) - get_time ar c (tic_clock env))))
          (to_double (read_count c))) /\
  (forall a,
      affinity_ok env = true ->
      array !! Z.to_nat cpu = Some a ->
      0 < base a -> 0 <= size c -> 1 <= size c / CACHELINE ->
      (if sequential c then size c / CACHELINE <= capacity a
       else size c / CACHELINE < capacity a) ->
      (forall n, 0 <= rand env n) ->
      (write c = true -> 0 <= ofs c < DUMMY_LEN) ->
      size c / CACHELINE < Z.of_nat fuel ->
      batches (read_count c) < Z.of_nat fuel ->
      exists r,
        benchmark_thread fuel ar env c cpu array = Ok r /\
        steps (w_visited r) = 32 * batches (read_count c)).
Proof.
  split.
  { intros r Hr. apply worker_result_formula in Hr as (<- & <- & Hres). exact Hres. }
  intros a Haff Harr Hbase Hsize Hc Hcap Hrnd Hofs Hfuel Hfuel'.
  destruct (prepare_closes fuel (rand env) 0 a (size c) (sequential c)
              Hbase Hsize Hc Hcap Hrnd Hfuel) as (r0 & cycle & Hp & Hw).
  unfold benchmark_thread. rewrite Haff, Harr. simpl. rewrite Hp. simpl.
  destruct (write c) eqn:Hwr; simpl.
  - destruct (do_write_returns fuel (pr_arena r0) (Z.to_nat (size c / CACHELINE)) cycle
                (read_count c) (ofs c) Hw (Hofs eq_refl) Hfuel')
      as (a' & p & v & Hd & Hs & _).
    rewrite Hd. simpl. eexists. split; [reflexivity|]. simpl. done.
  - destruct (do_read_returns fuel (pr_arena r0) (Z.to_nat (size c / CACHELINE)) cycle
                (read_count c) Hw Hfuel') as (p & v & Hd & Hs).
    rewrite Hd. simpl. eexists. split; [reflexivity|]. simpl. done.
Qed.

Lemma worker_result_divides_by_requested_witness :
  exists r,
    benchmark_thread 5 AArch64 env_1000ns cfg_s256_c100 0 [zeroed5] = Ok r /\
    steps (w_visited r) = 32 * batches (read_count cfg_s256_c100) /\
    w_result r
    = double_div
        (to_double (wrap64 (get_time AArch64 cfg_s256_c100 (tac_clock env_1000ns)
                            - get_time AArch64 cfg_s256_c100 (tic_clock env_1000ns))))
        (to_double (read_count cfg_s256_c100)).
Proof.
  destruct (worker_result_divides_by_requested 5 AArch64 env_1000ns cfg_s256_c100 0 [zeroed5])
    as [Hres Hret].
  destruct (Hret zeroed5) as (r & Hr & Hsteps).
  - reflexivity.
  - reflexivity.
  - reflexivity.
  - vm_compute. discriminate.
  - vm_compute. discriminate.
  - vm_compute. discriminate.
  - intros n. vm_compute. discriminate.
  - discriminate.
  - vm_compute. reflexivity.
  - vm_compute. reflexivity.
  - exists r. split; [exact Hr|]. split; [exact Hsteps|]. exact (Hres r Hr).
Defined.

(** [cfg_s256_c100] is what [main] makes of [-s 256 -c 100]. *)
Example main_config_s256_c100 :
  main_config AArch64 [Opt_s 256; Opt_c 100] = Ok cfg_s256_c100.
Proof. reflexivity. Qed.

(** The same worker, evaluated: 1000 ns elapse, 100 accesses are
    requested, 64 are made, and the result is [1000 / 100 = 10]. *)
Example worker_1000ns_100_requested :
  exists r,
    benchmark_thread 5 AArch64 env_1000ns cfg_s256_c100 0 [zeroed5] = Ok r /\
    wrap64 (w_tac r - w_tic r) = 1000 /\
    steps (w_visited r) = 64 /\
    w_result r = to_double 10 /\
    w_result r <> double_div (to_double 1000) (to_double 64).
Proof.
  eexists. split; [vm_compute; reflexivity|]. repeat split. vm_compute. discriminate.
Qed.


(** * Further properties *)

(** ** The options and the runs *)

(** What the option loop keeps true of the configuration. *)
Lemma apply_option_range (c c' : cfg) (o : option_arg) :
  apply_option c o = Ok c' ->
  (0 <= size c <= ARENA_BYTES /\ 0 <= num_threads c < 2 ^ 32 /\
   0 <= read_count c < 2 ^ 32 /\ 0 <= ofs c < 2 ^ 32) ->
  (0 <= size c' <= ARENA_BYTES /\ 0 <= num_threads c' < 2 ^ 32 /\
   0 <= read_count c' < 2 ^ 32 /\ 0 <= ofs c' < 2 ^ 32).
Proof.
  intros Ha Hr. destruct o; simpl in Ha; try discriminate;
    try (injection Ha as <-; simpl; pose proof (wrap32_range v); lia);
    try (injection Ha as <-; simpl; lia).
  destruct (Z.gtb_spec (wrap32 v) ARENA_BYTES); [discriminate|].
  injection Ha as <-. simpl. pose proof (wrap32_range v). lia.
Qed.

Lemma getopt_loop_range (opts : list option_arg) (c c' : cfg) :
  getopt_loop opts c = Ok c' ->
  (0 <= size c <= ARENA_BYTES /\ 0 <= num_threads c < 2 ^ 32 /\
   0 <= read_count c < 2 ^ 32 /\ 0 <= ofs c < 2 ^ 32) ->
  (0 <= size c' <= ARENA_BYTES /\ 0 <= num_threads c' < 2 ^ 32 /\
   0 <= read_count c' < 2 ^ 32 /\ 0 <= ofs c' < 2 ^ 32).
Proof.
  revert c. induction opts as [|o opts IH]; intros c H Hr; simpl in H.
  - by injection H as <-.
  - apply bind_Ok in H as (c1 & Ho & H). eapply IH; [exact H|].
    by eapply apply_option_range.
Qed.

Lemma main_config_size (ar : arch) (opts : list option_arg) (c : cfg) :
  main_config ar opts = Ok c -> 0 <= size c <= ARENA_BYTES.
Proof.
  unfold main_config. intros H. apply bind_Ok in H as (c0 & Hg & H).
  destruct (write c0 && negb (ofs c0 <? DUMMY_LEN)); [discriminate|].
  injection H as <-.
  apply (getopt_loop_range opts default_cfg c0 Hg).
  vm_compute. repeat split; discriminate.
Qed.

(** X1. Every configuration [main] accepts has a working-set size of at most
    [sizeof(array[0])], all its [unsigned] fields in range and, in write
    mode, a write offset inside [dummy]. *)
Theorem main_config_accepts_in_range (ar : arch) (opts : list option_arg) (c : cfg) :
  main_config ar opts = Ok c ->
  0 <= size c <= ARENA_BYTES /\
  0 <= num_threads c < 2 ^ 32 /\
  0 <= read_count c < 2 ^ 32 /\
  0 <= ofs c < 2 ^ 32 /\
  (write c = true -> ofs c < DUMMY_LEN).
Proof.
  unfold main_config. intros H. apply bind_Ok in H as (c0 & Hg & H).
  destruct (write c0 && negb (ofs c0 <? DUMMY_LEN)) eqn:Hw; [discriminate|].
  injection H as <-.
  destruct (getopt_loop_range opts default_cfg c0 Hg) as (Hs & Hn & Hr & Ho).
  { vm_compute. repeat split; discriminate. }
  repeat split; try lia. intros Hwr. rewrite Hwr in Hw. simpl in Hw.
  apply negb_false_iff in Hw. lia.
Qed.

Lemma main_config_accepts_in_range_witness :
  main_config AArch64 [Opt_w; Opt_o 13; Opt_s 4096; Opt_t 2] 
  = Ok {| sequential := true; size := 4096; num_threads := 2; read_count := 0x2000000;
          cpu_set := CPU_ZERO; write := true; ofs := 13; use_cycles := false |} /\
  (13 < DUMMY_LEN).
Proof.
  split; [reflexivity|].
  apply (main_config_accepts_in_range AArch64 [Opt_w; Opt_o 13; Opt_s 4096; Opt_t 2]
           {| sequential := true; size := 4096; num_threads := 2; read_count := 0x2000000;
              cpu_set := CPU_ZERO; write := true; ofs := 13; use_cycles := false |} eq_refl).
  reflexivity.
Defined.

Lemma Ok_inj {A : Type} (x y : A) : Ok x = Ok y -> x = y.
Proof. by intros [= ->]. Qed.

Lemma sweep_runs (c : cfg) : sweep c = Ok (with_size c <$> sweep_sizes).
Proof. reflexivity. Qed.

Lemma sweep_sizes_facts :
  length sweep_sizes = 30%nat /\
  Forall (fun s => 1024 <= s <= ARENA_BYTES /\ s mod CACHELINE = 0) sweep_sizes /\
  StronglySorted Z.lt sweep_sizes.
Proof.
  split; [reflexivity|]. split.
  - apply (bool_decide_unpack _). vm_compute. exact I.
  - apply (bool_decide_unpack _). vm_compute. exact I.
Qed.

(** X2. Every run [main] starts has a working set of at least one byte and at
    most [sizeof(array[0])].  With a size on the command line there is
    that one run; without one (or with [-s 0]) there are the 30 runs of
    the sweep, whose sizes grow strictly from 1 KiB to 24 MiB and are all
    multiples of the node size. *)
Theorem main_runs_fit_arena (ar : arch) (opts : list option_arg) (runs : list cfg) :
  main_runs ar opts = Ok runs ->
  Forall (fun r => 0 < size r <= ARENA_BYTES) runs /\
  exists c,
    main_config ar opts = Ok c /\
    (size c <> 0 -> runs = [c]) /\
    (size c = 0 ->
     runs = with_size c <$> sweep_sizes /\
     length runs = 30%nat /\
     Forall (fun r => 1024 <= size r /\ size r mod CACHELINE = 0) runs /\
     StronglySorted Z.lt (size <$> runs)).
Proof.
  unfold main_runs. intros H. apply bind_Ok in H as (c & Hc & H).
  pose proof (main_config_size ar opts c Hc) as Hs.
  destruct sweep_sizes_facts as (Hlen & Hall & Hsorted).
  assert (size <$> (with_size c <$> sweep_sizes) = sweep_sizes) as Hsizes.
  { rewrite <- list_fmap_compose. apply list_fmap_id. }
  rewrite sweep_runs in H.
  destruct (Z.eqb_spec (size c) 0) as [Hz|Hnz]; cbn [negb] in H;
    apply Ok_inj in H; subst runs.
  - split.
    + rewrite Forall_fmap. eapply Forall_impl; [exact Hall|]. simpl. intros s. lia.
    + exists c. split; [done|]. split; [done|]. intros _. split; [done|].
      split; [by rewrite length_fmap|]. split; [|by rewrite Hsizes].
      rewrite Forall_fmap. eapply Forall_impl; [exact Hall|]. simpl. intros s. lia.
  - split.
    + constructor; [lia|constructor].
    + exists c. split; [done|]. split; [done|]. done.
Qed.

Lemma main_runs_fit_arena_witness :
  main_runs OtherArch [Opt_r; Opt_y]
  = Ok (with_size {| sequential := false; size := 0; num_threads := 1;
                     read_count := 0x2000000; cpu_set := CPU_ZERO; write := false;
                     ofs := 0; use_cycles := true |} <$> sweep_sizes) /\
  Forall (fun r => 0 < size r <= ARENA_BYTES)
         (with_size {| sequential := false; size := 0; num_threads := 1;
                       read_count := 0x2000000; cpu_set := CPU_ZERO; write := false;
                       ofs := 0; use_cycles := true |} <$> sweep_sizes).
Proof.
  split; [reflexivity|].
  exact (proj1 (main_runs_fit_arena OtherArch [Opt_r; Opt_y] _ eq_refl)).
Defined.

(** ** The timing source *)

Lemma get_time_true_count (ar : arch) (c : cfg) (h : clock_reading) :
  (use_cycles c = true -> ar = AArch64) ->
  get_time ar c h = wrap64 (true_count c h).
Proof.
  intros Har. unfold get_time, true_count, wrap64.
  destruct (use_cycles c); simpl.
  - by rewrite (Har eq_refl).
  - rewrite Z.add_mod by lia. rewrite Z.mul_mod_idemp_l by lia.
    by rewrite <- Z.add_mod by lia.
Qed.

(** X3. Where the timing source is supported, [tac - tic] computed in
    [uint64_t] is the count that really elapsed between the two readings
    whenever that is below [2^64], also when the 64-bit value wraps
    around between them. *)
Theorem elapsed_exact_across_wrap (ar : arch) (c : cfg) (h0 h1 : clock_reading) :
  (use_cycles c = true -> ar = AArch64) ->
  0 <= true_count c h1 - true_count c h0 < 2 ^ 64 ->
  wrap64 (get_time ar c h1 - get_time ar c h0) = true_count c h1 - true_count c h0.
Proof.
  intros Har Hd. rewrite !get_time_true_count by done. unfold wrap64.
  rewrite Zminus_mod_idemp_l, Zminus_mod_idemp_r. by apply Z.mod_small.
Qed.

Lemma elapsed_exact_across_wrap_witness :
  get_time AArch64 cfg_cycles before_wrap = 2 ^ 64 - 5 /\
  get_time AArch64 cfg_cycles after_wrap = 10 /\
  wrap64 (get_time AArch64 cfg_cycles after_wrap - get_time AArch64 cfg_cycles before_wrap)
  = 15.
Proof.
  split; [reflexivity|]. split; [reflexivity|].
  assert (0 <= true_count cfg_cycles after_wrap - true_count cfg_cycles before_wrap < 2 ^ 64)
    as H by (vm_compute; split; [discriminate|reflexivity]).
  exact (elapsed_exact_across_wrap AArch64 cfg_cycles before_wrap after_wrap
           (fun _ => eq_refl) H).
Defined.

(** ** The worker table and the CPUs *)

Lemma find_head_filter {A : Type} (f : A -> bool) (l : list A) :
  List.find f l = head (filter (fun x => f x = true) l).
Proof.
  induction l as [|x l IH]; [done|]. simpl. rewrite filter_cons.
  destruct (f x) eqn:E.
  - by rewrite decide_True.
  - rewrite decide_False by congruence. done.
Qed.

Lemma first_cpu_members (set : Z) : first_cpu set = head (cpu_members set).
Proof. apply find_head_filter. Qed.

Lemma CPU_ISSET_in_mask (j set : Z) : CPU_ISSET j set = true -> 0 <= j < CPU_SETSIZE.
Proof. unfold CPU_ISSET, cpu_in_mask. intros H. apply andb_true_iff in H as [H _]. lia. Qed.

(** [CPU_CLR] removes the CPU it names and no other. *)
Lemma CPU_ISSET_CLR (j k set : Z) :
  CPU_ISSET k (CPU_CLR j set) = CPU_ISSET k set && negb (k =? j).
Proof.
  unfold CPU_ISSET, CPU_CLR.
  destruct (cpu_in_mask k) eqn:Hk; [|done]. simpl.
  destruct (cpu_in_mask j) eqn:Hj.
  - unfold cpu_in_mask in *.
    rewrite Z.ldiff_spec, Z.shiftl_1_l, Z.pow2_bits_eqb by lia.
    by rewrite (Z.eqb_sym j k).
  - destruct (Z.eqb_spec k j) as [->|]; [congruence|]. by rewrite andb_true_r.
Qed.

Lemma elem_of_cpu_members (j set : Z) :
  j ∈ cpu_members set <-> 0 <= j < MAX_CPUS /\ CPU_ISSET j set = true.
Proof.
  unfold cpu_members. rewrite list_elem_of_filter, elem_of_seqZ. unfold MAX_CPUS. intuition lia.
Qed.

Lemma CPU_COUNT_0 (set : Z) :
  CPU_COUNT set = 0 <-> forall j, CPU_ISSET j set = false.
Proof.
  unfold CPU_COUNT. split.
  - intros H j. destruct (CPU_ISSET j set) eqn:E; [|done]. exfalso.
    assert (j ∈ filter (fun cpu => CPU_ISSET cpu set = true) (seqZ 0 CPU_SETSIZE)) as Hin.
    { apply list_elem_of_filter. split; [done|]. apply elem_of_seqZ.
      apply CPU_ISSET_in_mask in E. lia. }
    destruct (filter _ _); [by apply elem_of_nil in Hin|]. simpl in H. lia.
  - intros H. replace (filter _ _) with (@nil Z); [done|]. symmetry.
    induction (seqZ 0 CPU_SETSIZE) as [|x l IH]; [done|].
    rewrite filter_cons_False; [done|]. rewrite H. discriminate.
Qed.

Lemma filter_iff_on {A : Type} (P1 P2 : A -> Prop)
    `{!forall x, Decision (P1 x), !forall x, Decision (P2 x)} (l : list A) :
  (forall x, x ∈ l -> P1 x <-> P2 x) -> filter P1 l = filter P2 l.
Proof.
  induction l as [|a l IH]; intros Hiff; [done|].
  assert (filter P1 l = filter P2 l) as E.
  { apply IH. intros x Hx. apply Hiff. by right. }
  pose proof (Hiff a ltac:(left)) as Ha.
  destruct (decide (P1 a)).
  - rewrite !filter_cons_True by tauto. by rewrite E.
  - rewrite !filter_cons_False by tauto. done.
Qed.

(** Dropping the first [i] of the elements that pass a filter is
    filtering out those [i] as well. *)
Lemma filter_drop_taken {A : Type} `{EqDecision A} (P : A -> Prop)
    `{!forall x, Decision (P x)} (l : list A) (i : nat) :
  NoDup l ->
  filter (fun x => P x /\ x ∉ take i (filter P l)) l = drop i (filter P l).
Proof.
  intros Hnd. revert i. induction Hnd as [|x l Hx Hnd IH]; intros i.
  { by destruct i. }
  destruct i as [|i].
  { simpl. apply list_filter_iff. intros y. split; [tauto|].
    intros Hy. split; [done|apply not_elem_of_nil]. }
  destruct (decide (P x)) as [HP|HP].
  - rewrite (filter_cons_True P) by done. simpl.
    rewrite filter_cons_False by (intros [_ Hn]; apply Hn; left).
    rewrite <- IH. apply filter_iff_on. intros y Hy.
    rewrite not_elem_of_cons. assert (y <> x) by (intros ->; done). tauto.
  - rewrite (filter_cons_False P) by done.
    rewrite filter_cons_False by tauto. apply IH.
Qed.

Lemma cpu_members_after (set0 set : Z) (i : nat) :
  (forall j, CPU_ISSET j set
             = CPU_ISSET j set0 && bool_decide (j ∉ take i (cpu_members set0))) ->
  cpu_members set = drop i (cpu_members set0).
Proof.
  intros Hset. unfold cpu_members in *.
  rewrite <- (filter_drop_taken (fun j => CPU_ISSET j set0 = true)) by apply NoDup_seqZ.
  apply list_filter_iff. intros j. rewrite Hset, andb_true_iff, bool_decide_eq_true.
  done.
Qed.

Lemma spawn_inv_step (set0 i : Z) (st : thread_table * Z * list Z) :
  0 <= i < MAX_CPUS ->
  spawn_inv set0 i st ->
  exists st', spawn_one i st = Ok st' /\ spawn_inv set0 (i + 1) st'.
Proof.
  intros Hi. destruct st as [[thread set] created].
  intros (Hset & Hlen & Hdone & Hfree & Hcreated). simpl in *. subst created.
  unfold thread_table in *.
  assert (Z.to_nat (i + 1) = S (Z.to_nat i)) as HS by lia.
  set (ms := cpu_members set0) in *.
  pose proof (cpu_members_after set0 set (Z.to_nat i) Hset) as Hms. fold ms in Hms.
  unfold spawn_one. rewrite Hlen.
  destruct (Z.leb_spec 0 i); [|lia]. destruct (Z.ltb_spec i (Z.of_nat (Z.to_nat MAX_CPUS)));
    [|unfold MAX_CPUS in *; lia].
  simpl. rewrite first_cpu_members, Hms.
  assert (forall t, 0 <= t < i + 1 -> t <> i -> 0 <= t < i) as Hlt by lia.
  destruct (ms !! Z.to_nat i) as [m|] eqn:Hm.
  - (* the set still has a member below MAX_CPUS *)
    assert (CPU_ISSET m set = true) as Hmset.
    { assert (m ∈ cpu_members set) as Hin.
      { rewrite Hms. apply list_elem_of_lookup. exists 0%nat.
        by rewrite lookup_drop, Nat.add_0_r. }
      by apply elem_of_cpu_members in Hin as [_ ?]. }
    destruct (Z.eqb_spec (CPU_COUNT set) 0) as [Hz|_].
    { rewrite (proj1 (CPU_COUNT_0 set) Hz m) in Hmset. discriminate. }
    rewrite (drop_S _ _ _ Hm). simpl. eexists. split; [reflexivity|].
    unfold spawn_inv. simpl. rewrite HS. fold ms. unfold thread_table.
    split; [|split; [by rewrite length_insert|split; [|split]]].
    + intros j. rewrite CPU_ISSET_CLR, Hset, (take_S_r _ _ _ Hm), <- andb_assoc. f_equal.
      apply eq_true_iff_eq. rewrite andb_true_iff, negb_true_iff, Z.eqb_neq,
        !bool_decide_eq_true, not_elem_of_app, list_elem_of_singleton. done.
    + intros t Ht. destruct (decide (t = i)) as [->|Hne].
      * rewrite list_lookup_insert_eq by (rewrite Hlen; unfold MAX_CPUS in *; lia). unfold assigned_cpu. fold ms. by rewrite Hm.
      * rewrite list_lookup_insert_ne by lia. apply Hdone. lia.
    + intros t Ht. rewrite list_lookup_insert_ne by lia. apply Hfree. lia.
    + by rewrite (seqZ_app 0 i 1) by lia.
  - (* every member below MAX_CPUS has been handed out *)
    apply lookup_ge_None in Hm.
    assert (forall j, CPU_ISSET j set = true <-> MAX_CPUS <= j /\ CPU_ISSET j set0 = true)
      as Hhigh.
    { intros j. rewrite Hset, take_ge, andb_true_iff, bool_decide_eq_true by done.
      unfold ms. rewrite elem_of_cpu_members. split.
      - intros [Hj Hn]. split; [|done]. pose proof (CPU_ISSET_in_mask _ _ Hj).
        destruct (Z.le_gt_cases MAX_CPUS j); [done|]. exfalso. apply Hn. split; [lia|done].
      - intros [Hj Hset0]. split; [done|]. intros [? _]. lia. }
    assert (assigned_cpu set0 i = if has_high_member set0 then None else Some i) as Has.
    { unfold assigned_cpu. fold ms. by rewrite (proj2 (lookup_ge_None ms _) Hm). }
    assert (forall j, CPU_ISSET j set
                      = CPU_ISSET j set0 && bool_decide (j ∉ take (S (Z.to_nat i)) ms))
      as Hset'.
    { intros j. rewrite Hset, !take_ge by lia. done. }
    rewrite drop_ge by done. simpl.
    destruct (Z.eqb_spec (CPU_COUNT set) 0) as [Hz|Hnz].
    + assert (has_high_member set0 = false) as Hh.
      { apply not_true_is_false. intros Hh. unfold has_high_member in Hh.
        apply existsb_exists in Hh as (j & Hj & Hjset).
        apply list_elem_of_In, elem_of_seqZ in Hj.
        pose proof (proj1 (CPU_COUNT_0 set) Hz j) as Hf.
        rewrite (proj2 (Hhigh j)) in Hf by (split; [lia|done]). discriminate. }
      eexists. split; [reflexivity|]. unfold spawn_inv. simpl. rewrite HS. fold ms. unfold thread_table.
      split; [done|]. split; [by rewrite length_insert|]. split; [|split].
      * intros t Ht. destruct (decide (t = i)) as [->|Hne].
        -- rewrite list_lookup_insert_eq by (rewrite Hlen; unfold MAX_CPUS in *; lia). by rewrite Has, Hh.
        -- rewrite list_lookup_insert_ne by lia. apply Hdone. lia.
      * intros t Ht. rewrite list_lookup_insert_ne by lia. apply Hfree. lia.
      * by rewrite (seqZ_app 0 i 1) by lia.
    + assert (has_high_member set0 = true) as Hh.
      { destruct (has_high_member set0) eqn:Hh; [done|]. exfalso. apply Hnz.
        apply CPU_COUNT_0. intros j. destruct (CPU_ISSET j set) eqn:E; [|done].
        apply Hhigh in E as [Hj Hset0].
        assert (existsb (fun j => CPU_ISSET j set0)
                  (seqZ MAX_CPUS (CPU_SETSIZE - MAX_CPUS)) = true) as Hex.
        { apply existsb_exists. exists j. split; [|done].
          apply list_elem_of_In, elem_of_seqZ. apply CPU_ISSET_in_mask in Hset0. lia. }
        unfold has_high_member in Hh. congruence. }
      eexists. split; [reflexivity|]. unfold spawn_inv. simpl. rewrite HS. fold ms. unfold thread_table.
      split; [done|]. split; [done|]. split; [|split].
      * intros t Ht. destruct (decide (t = i)) as [->|Hne].
        -- rewrite Has, Hh. apply Hfree. lia.
        -- apply Hdone. lia.
      * intros t Ht. apply Hfree. lia.
      * by rewrite (seqZ_app 0 i 1) by lia.
Qed.

Lemma spawn_establishes_inv (c : cfg) :
  0 <= num_threads c <= MAX_CPUS ->
  exists st,
    run_benchmark_spawn c = Ok st /\ spawn_inv (cpu_set c) (num_threads c) st.
Proof.
  intros Hn. unfold run_benchmark_spawn, for_loop.
  destruct (for_count_inv (spawn_inv (cpu_set c)) spawn_one
              (Z.to_nat (num_threads c - 0)) 0
              (replicate (Z.to_nat MAX_CPUS) None, cpu_set c, []))
    as (st & Hrun & Hinv).
  - unfold spawn_inv. cbn [fst snd]. split; [|split; [apply length_replicate|split; [|split]]].
    + intros j. by rewrite andb_true_r.
    + intros t Ht. lia.
    + intros t Ht. apply lookup_replicate_2. unfold MAX_CPUS in *. lia.
    + done.
  - intros j st Hj. apply spawn_inv_step. lia.
  - replace (0 + Z.of_nat (Z.to_nat (num_threads c - 0))) with (num_threads c) in * by lia.
    by exists st.
Qed.

(** X4. How [run_benchmark] hands out CPUs when at most [MAX_CPUS] workers
    are asked for.  Worker [i] is created for each [i < num_threads] and
    no other.  It gets the [i]-th smallest member of the CPU set below
    [MAX_CPUS] while there is one; once these are used up it gets CPU [i]
    if the set is then empty, and no CPU at all ([thread[i].cpu] is left
    unassigned) if the set still holds a member at or above [MAX_CPUS].
    The members handed out, and only they, are removed from the set. *)
Theorem spawn_assigns_cpus (c : cfg) :
  0 <= num_threads c <= MAX_CPUS ->
  exists thread set',
    run_benchmark_spawn c = Ok (thread, set', seqZ 0 (num_threads c)) /\
    length thread = Z.to_nat MAX_CPUS /\
    (forall i, 0 <= i < num_threads c ->
               thread !! Z.to_nat i = Some (assigned_cpu (cpu_set c) i)) /\
    (forall i, num_threads c <= i < MAX_CPUS -> thread !! Z.to_nat i = Some None) /\
    (forall j, CPU_ISSET j set'
               = CPU_ISSET j (cpu_set c)
                 && bool_decide (j ∉ take (Z.to_nat (num_threads c)) (cpu_members (cpu_set c)))).
Proof.
  intros Hn.
  destruct (spawn_establishes_inv c Hn) as ([[thread set'] created] & Hrun & Hinv).
  destruct Hinv as (Hset & Hlen & Hdone & Hfree & Hcreated). cbn [fst snd] in *.
  subst created.
  exists thread, set'. done.
Qed.

Lemma spawn_assigns_cpus_witness :
  exists thread set',
    run_benchmark_spawn cfg_C2_C5_t3 = Ok (thread, set', seqZ 0 3) /\
    length thread = Z.to_nat MAX_CPUS /\
    (forall i, 0 <= i < 3 -> thread !! Z.to_nat i = Some (assigned_cpu (cpu_set cfg_C2_C5_t3) i)) /\
    (forall i, 3 <= i < MAX_CPUS -> thread !! Z.to_nat i = Some None) /\
    (forall j, CPU_ISSET j set'
               = CPU_ISSET j (cpu_set cfg_C2_C5_t3)
                 && bool_decide (j ∉ take (Z.to_nat 3) (cpu_members (cpu_set cfg_C2_C5_t3)))).
Proof.
  apply (spawn_assigns_cpus cfg_C2_C5_t3). vm_compute. split; discriminate.
Defined.

(** With [-C 2 -C 5 -t 3] the workers get CPUs 2, 5 and 2: the third
    finds the set used up and falls back to its own index, which the
    first already holds. *)
Example spawn_C2_C5_t3 :
  main_config AArch64 [Opt_C 2; Opt_C 5; Opt_t 3; Opt_s 1024] = Ok cfg_C2_C5_t3 /\
  assigned_cpu (cpu_set cfg_C2_C5_t3) <$> [0; 1; 2] = [Some 2; Some 5; Some 2].
Proof. split; reflexivity. Qed.

(** X5. A single [-C j] with [1 <= j < num_threads] puts two workers on
    CPU [j]: worker 0, which takes it from the set, and worker [j], which
    finds the set empty and takes its own index. *)
Theorem spawn_shares_cpu (c : cfg) (j : Z) :
  cpu_set c = CPU_SET j CPU_ZERO ->
  1 <= j < num_threads c -> num_threads c <= MAX_CPUS ->
  exists thread set',
    run_benchmark_spawn c = Ok (thread, set', seqZ 0 (num_threads c)) /\
    thread !! 0%nat = Some (Some j) /\
    thread !! Z.to_nat j = Some (Some j).
Proof.
  intros Hset Hj Hn.
  destruct (spawn_establishes_inv c ltac:(lia))
    as ([[thread set'] created] & Hrun & _ & _ & Hcpu & _ & Hcreated).
  cbn [fst snd] in *. subst created.
  exists thread, set'. split; [done|].
  assert (cpu_members (cpu_set c) = [j] /\ has_high_member (cpu_set c) = false) as [Hm Hh].
  { rewrite Hset. unfold MAX_CPUS in *.
    assert (j = 1 \/ j = 2 \/ j = 3 \/ j = 4 \/ j = 5 \/ j = 6 \/ j = 7) as Hcases by lia.
    destruct Hcases as [->|[->|[->|[->|[->|[->| ->]]]]]]; split; vm_compute; reflexivity. }
  split.
  - etrans; [exact (Hcpu 0 ltac:(lia))|]. unfold assigned_cpu. by rewrite Hm.
  - rewrite (Hcpu j) by lia. unfold assigned_cpu. rewrite Hm, Hh.
    destruct (Z.to_nat j) eqn:E; [lia|]. done.
Qed.

Lemma spawn_shares_cpu_witness :
  exists thread set',
    run_benchmark_spawn cfg_C2_t3 = Ok (thread, set', seqZ 0 (num_threads cfg_C2_t3)) /\
    thread !! 0%nat = Some (Some 2) /\
    thread !! Z.to_nat 2 = Some (Some 2).
Proof.
  apply (spawn_shares_cpu cfg_C2_t3 2).
  - reflexivity.
  - vm_compute. split; [discriminate|reflexivity].
  - vm_compute. discriminate.
Defined.

(** ** More on prepare *)

(** X6. Sequential [prepare], for a working set of [count >= 1] nodes that
    fits the arena, links the first [count] nodes into one cycle in index
    order and touches nothing else: the [dummy] words of every node and
    the nodes from index [count] on are as before. *)
Theorem sequential_prepare_cycle_and_frame (fuel : nat) (rnd : nat -> Z) (calls : nat)
    (a : arena) (size : Z) :
  1 <= size / CACHELINE <= capacity a ->
  exists a',
    prepare fuel rnd calls a size true
      = Ok {| pr_arena := a'; pr_calls := calls; pr_probes := [] |} /\
    single_cycle a' (size / CACHELINE) (addr a' <$> seqZ 0 (size / CACHELINE)) /\
    base a' = base a /\
    length (cells a') = length (cells a) /\
    (forall n, dummy <$> cells a' !! n = dummy <$> cells a !! n) /\
    (forall n, size / CACHELINE <= Z.of_nat n -> cells a' !! n = cells a !! n).
Proof.
  intros Hc.
  destruct (prepare_sequential_spec fuel rnd calls a size Hc)
    as (a' & Hp & Hb & Hl & Hd & Hrest & _).
  destruct (prepare_sequential_single_cycle fuel rnd calls a size Hc)
    as (a'' & Hp' & _ & _ & Hcyc).
  rewrite Hp in Hp'. apply Ok_inj in Hp'. injection Hp' as <-.
  exists a'. done.
Qed.

Lemma sequential_prepare_cycle_and_frame_witness :
  1 <= 256 / CACHELINE <= capacity zeroed5 /\
  exists a',
    prepare 0 rand_2 0 zeroed5 256 true
      = Ok {| pr_arena := a'; pr_calls := 0; pr_probes := [] |} /\
    single_cycle a' (256 / CACHELINE) (addr a' <$> seqZ 0 (256 / CACHELINE)) /\
    base a' = base zeroed5 /\
    length (cells a') = length (cells zeroed5) /\
    (forall n, dummy <$> cells a' !! n = dummy <$> cells zeroed5 !! n) /\
    (forall n, 256 / CACHELINE <= Z.of_nat n -> cells a' !! n = cells zeroed5 !! n).
Proof.
  assert (1 <= 256 / CACHELINE <= capacity zeroed5) as H
    by (vm_compute; split; discriminate).
  split; [exact H|].
  exact (sequential_prepare_cycle_and_frame 0 rand_2 0 zeroed5 256 H).
Defined.






(** X9. Random [prepare], for a working set of [count >= 1] nodes that
    leaves a node of the arena unused and with fuel above [count], always
    returns, after exactly [count - 1] calls of [rand()].  The nodes it
    has chained are [count] distinct nodes among the first [count + 1],
    node 0 first; following [ptr] from node 0 passes them in that order
    and closes on node 0; and no scan reads an index outside
    [0 .. count]. *)
Theorem random_prepare_closed_chain (fuel : nat) (rnd : nat -> Z) (calls : nat)
    (a : arena) (size : Z) :
  0 < base a -> 0 <= size ->
  1 <= size / CACHELINE < capacity a ->
  (forall n, 0 <= rnd n) ->
  size / CACHELINE < Z.of_nat fuel ->
  exists r ns,
    prepare fuel rnd calls a size false = Ok r /\
    pr_calls r = (calls + Z.to_nat (size / CACHELINE - 1))%nat /\
    length ns = Z.to_nat (size / CACHELINE) /\
    NoDup ns /\
    head ns = Some 0%nat /\
    (forall n, n ∈ ns -> Z.of_nat n <= size / CACHELINE) /\
    closes (pr_arena r) (Z.to_nat (size / CACHELINE))
           ((fun m => addr (pr_arena r) (Z.of_nat m)) <$> ns) /\
    Forall (fun j => 0 <= j <= size / CACHELINE) (pr_probes r).
Proof.
  intros Hbase Hsize Hcount Hrnd Hfuel.
  destruct (prepare_random_spec fuel rnd calls a size Hbase Hsize Hcount Hrnd Hfuel)
    as (a0 & a' & probes & ns & _ & Hp & _ & _ & Hlen & Hnd & Hhd & Hrange & _ & Hw & Hpr).
  eexists _, ns. split; [exact Hp|]. simpl.
  split; [done|]. split; [done|]. split; [done|]. split; [done|].
  split; [intros n Hn; by apply Hrange|]. split; [|done].
  split; [lia|done].
Qed.

Lemma random_prepare_closed_chain_witness :
  exists r ns,
    prepare 4 rand_2 0 zeroed5 192 false = Ok r /\
    pr_calls r = (0 + Z.to_nat (192 / CACHELINE - 1))%nat /\
    length ns = Z.to_nat (192 / CACHELINE) /\
    NoDup ns /\
    head ns = Some 0%nat /\
    (forall n, n ∈ ns -> Z.of_nat n <= 192 / CACHELINE) /\
    closes (pr_arena r) (Z.to_nat (192 / CACHELINE))
           ((fun m => addr (pr_arena r) (Z.of_nat m)) <$> ns) /\
    Forall (fun j => 0 <= j <= 192 / CACHELINE) (pr_probes r).
Proof.
  apply (random_prepare_closed_chain 4 rand_2 0 zeroed5 192).
  - reflexivity.
  - discriminate.
  - vm_compute. split; [discriminate|reflexivity].
  - intros n. discriminate.
  - reflexivity.
Defined.

Lemma memset0_whole_nodes (a a0 : arena) (size : Z) :
  memset0 a size = Ok a0 -> 0 <= size -> size mod CACHELINE = 0 ->
  ptr <$> cells a0 !! Z.to_nat (size / CACHELINE)
  = ptr <$> cells a !! Z.to_nat (size / CACHELINE).
Proof.
  unfold memset0. intros H Hs Hm.
  destruct (size <=? CACHELINE * capacity a); [|discriminate].
  apply Ok_inj in H. subst a0. simpl. rewrite list_lookup_imap.
  destruct (cells a !! Z.to_nat (size / CACHELINE)) as [c|]; [|done]. simpl. f_equal.
  unfold zero_low_bytes, CACHELINE in *.
  assert (0 <= size / 64) by (apply Z.div_pos; lia).
  pose proof (Z.div_mod size 64 ltac:(lia)).
  destruct (Z.leb_spec (size - 64 * Z.of_nat (Z.to_nat (size / 64))) 0); [done|lia].
Qed.

(** X10. Random [prepare] over a working set of whole nodes does build a
    single cycle through exactly the first [count] nodes whenever node
    [count] holds a non-NULL [ptr] on entry, as it does after a run with
    a larger working set. *)
Theorem random_prepare_after_larger_run (fuel : nat) (rnd : nat -> Z) (calls : nat)
    (a : arena) (size : Z) :
  0 < base a -> 0 <= size -> size mod CACHELINE = 0 ->
  1 <= size / CACHELINE < capacity a ->
  (forall n, 0 <= rnd n) ->
  size / CACHELINE < Z.of_nat fuel ->
  ptr <$> cells a !! Z.to_nat (size / CACHELINE) <> Some NULL ->
  exists r cycle,
    prepare fuel rnd calls a size false = Ok r /\
    single_cycle (pr_arena r) (size / CACHELINE) cycle.
Proof.
  intros Hbase Hsize Hmod Hcount Hrnd Hfuel Hsent.
  destruct (memset0_spec a size Hsize ltac:(lia)) as (a0 & Hms & _).
  apply (prepare_random_single_cycle fuel rnd calls a a0 size); try done.
  by rewrite (memset0_whole_nodes a a0 size Hms Hsize Hmod).
Qed.

Lemma random_prepare_after_larger_run_witness :
  ptr <$> cells seq4 !! Z.to_nat (192 / CACHELINE) = Some (addr seq4 0) /\
  exists r cycle,
    prepare 4 rand_2 0 seq4 192 false = Ok r /\
    single_cycle (pr_arena r) (192 / CACHELINE) cycle.
Proof.
  split; [reflexivity|].
  apply (random_prepare_after_larger_run 4 rand_2 0 seq4 192).
  - reflexivity.
  - discriminate.
  - reflexivity.
  - vm_compute. split; [discriminate|reflexivity].
  - intros n. discriminate.
  - reflexivity.
  - vm_compute. discriminate.
Defined.

(** ** More on the traversal *)

(** X11. [do_read] walks the cycle round and round from node 0: on a chain
    that closes on node 0 it returns, and the nodes it has loaded
    through are the first [32 * batches reads] of the cycle repeated.
    For [reads >= 32] that is [32 * (reads / 32) - 32] steps. *)
Theorem do_read_walks_cycle (fuel : nat) (a : arena) (n : nat) (cycle : list Z) (reads : Z) :
  closes a n cycle ->
  batches reads < Z.of_nat fuel ->
  exists p visited,
    do_read fuel a reads = Ok (p, visited) /\
    steps visited = 32 * batches reads /\
    visited = take (Z.to_nat (32 * batches reads))
                   (passes (Z.to_nat (32 * batches reads)) cycle) /\
    (32 <= reads < 2 ^ 32 -> steps visited = 32 * (reads / 32) - 32).
Proof.
  intros [Hn Hw] Hf. pose proof (batches_range reads) as Hb.
  rewrite do_read_iterM by done. set (N := Z.to_nat (32 * batches reads)).
  pose proof (cycle_passes a n cycle N Hw) as Hp.
  replace (N * n)%nat with (N + (N * n - N))%nat in Hp by nia.
  apply iterM_prefix in Hp as ([q v] & Hv & Hrest).
  pose proof (read_log_length _ _ _ _ _ _ Hv) as Hlen. simpl in Hlen.
  rewrite read_log_shift in Hrest.
  destruct (iterM (N * n - N) (read_step a) (q, [])) as [[q' v']| | |];
    simpl in Hrest; try discriminate.
  apply Ok_inj in Hrest. injection Hrest as _ Hpasses.
  exists q, v. split; [done|].
  assert (steps v = 32 * batches reads) as Hsteps by (unfold steps; rewrite Hlen; lia).
  split; [done|]. split.
  - rewrite <- Hpasses, <- Hlen. by rewrite take_app_length.
  - intros Hr. rewrite Hsteps, batches_ge32 by done. lia.
Qed.

Lemma do_read_walks_cycle_witness :
  exists p visited,
    do_read 4 seq4 100 = Ok (p, visited) /\
    steps visited = 32 * batches 100 /\
    visited = take (Z.to_nat (32 * batches 100)) (passes (Z.to_nat (32 * batches 100)) seq4_cycle) /\
    (32 <= 100 < 2 ^ 32 -> steps visited = 32 * (100 / 32) - 32).
Proof.
  apply (do_read_walks_cycle 4 seq4 4 seq4_cycle 100).
  - exact seq4_closes.
  - reflexivity.
Defined.

(** X12. [do_write] follows the path [do_read] follows for the same count,
    and what it changes is exactly this: in each node, word [ofs] of
    [dummy] is incremented once for each time the path passes the node.
    The [ptr] fields, the other words, and every node off the path are as
    before. *)
Theorem do_write_counts_visits (fuel : nat) (a : arena) (n : nat) (cycle : list Z)
    (accesses ofs : Z) :
  closes a n cycle ->
  0 <= ofs < DUMMY_LEN ->
  batches accesses < Z.of_nat fuel ->
  exists a' p visited,
    do_write fuel a accesses ofs = Ok (a', p, visited) /\
    do_read fuel a accesses = Ok (p, visited) /\
    base a' = base a /\
    (forall k, cells a' !! k
               = bump_node ofs (count_occ Z.eq_dec visited (addr a (Z.of_nat k)))
                   <$> cells a !! k) /\
    (forall k, addr a (Z.of_nat k) ∉ visited -> cells a' !! k = cells a !! k).
Proof.
  intros Hcl Ho Hf. pose proof (batches_range accesses) as Hb.
  rewrite do_write_iterM, do_read_iterM by done.
  destruct (closed_walk_chase a n cycle (Z.to_nat (32 * batches accesses)) Hcl)
    as (q & v & Hr & _).
  destruct (write_steps_spec ofs _ Ho a _ _ _ [] Hr) as (a' & Hwr & Hbase & _ & Hcells).
  exists a', q, v. split; [exact Hwr|]. split; [exact Hr|]. split; [done|].
  split; [done|]. intros k Hk. rewrite Hcells.
  rewrite (proj1 (count_occ_not_In Z.eq_dec v (addr a (Z.of_nat k)))).
  - destruct (cells a !! k); simpl; [|done]. by rewrite bump_node_0.
  - by rewrite <- list_elem_of_In.
Qed.

Lemma do_write_counts_visits_witness :
  exists a' p visited,
    do_write 4 seq4 100 3 = Ok (a', p, visited) /\
    do_read 4 seq4 100 = Ok (p, visited) /\
    base a' = base seq4 /\
    (forall k, cells a' !! k
               = bump_node 3 (count_occ Z.eq_dec visited (addr seq4 (Z.of_nat k)))
                   <$> cells seq4 !! k) /\
    (forall k, addr seq4 (Z.of_nat k) ∉ visited -> cells a' !! k = cells seq4 !! k).
Proof.
  apply (do_write_counts_visits 4 seq4 4 seq4_cycle 100 3).
  - exact seq4_closes.
  - vm_compute. split; [discriminate|reflexivity].
  - reflexivity.
Defined.

(** ** csvRow.cpp *)

Lemma to_int_small z : 0 <= z < 2 ^ 31 -> to_int z = z.
Proof.
  intros Hz. unfold to_int. cbv zeta.
  rewrite Z.mod_small by lia.
  destruct (Z.ltb_spec z (2 ^ 31)); lia.
Qed.

Lemma to_int_npos : to_int npos = -1.
Proof. reflexivity. Qed.

Lemma to_size_t_small z : 0 <= z < 2 ^ 64 -> to_size_t z = z.
Proof. intros Hz. unfold to_size_t. apply Z.mod_small. lia. Qed.

Lemma find_from_None s c : find_from s c 0 = None <-> c ∉ s.
Proof.
  induction s as [|x s IH]; simpl.
  - split; [intros _; apply not_elem_of_nil | done].
  - destruct (decide (x = c)) as [->|Hne].
    + split; [done | intros H; exfalso; apply H; left].
    + rewrite fmap_None, IH, not_elem_of_cons. intuition congruence.
Qed.

Lemma find_from_Some s c k :
  find_from s c 0 = Some k ->
  exists r1 r2, s = r1 ++ c :: r2 /\ length r1 = k /\ c ∉ r1.
Proof.
  revert k. induction s as [|x s IH]; intros k; simpl; [done|].
  destruct (decide (x = c)) as [->|Hne].
  - intros [= <-]. exists [], s. split_and!; [done | done | apply not_elem_of_nil].
  - intros Hk. apply fmap_Some in Hk as (k' & Hk' & ->).
    destruct (IH _ Hk') as (r1 & r2 & -> & <- & Hr1).
    exists (x :: r1), r2. split_and!; [done | done |].
    rewrite not_elem_of_cons. split; [congruence | done].
Qed.

Lemma find_from_app pre rest c :
  find_from (pre ++ rest) c (length pre)
  = (fun k => (length pre + k)%nat) <$> find_from rest c 0.
Proof.
  induction pre as [|x pre IH]; simpl.
  - destruct (find_from rest c 0); done.
  - rewrite IH. destruct (find_from rest c 0); done.
Qed.

Lemma found_iff s c :
  Z.of_nat (length s) < 2 ^ 31 ->
  (to_int (find_first_of s c 0) >=? 0) = bool_decide (c ∈ s).
Proof.
  intros Hlen. unfold find_first_of. change (Z.to_nat 0) with 0%nat.
  destruct (find_from s c 0) as [k|] eqn:Hf.
  - destruct (find_from_Some _ _ _ Hf) as (r1 & r2 & -> & <- & _).
    rewrite length_app in Hlen. simpl in Hlen.
    rewrite to_int_small by lia.
    rewrite bool_decide_eq_true_2 by (apply elem_of_app; right; left).
    apply Z.geb_le. lia.
  - rewrite to_int_npos. apply find_from_None in Hf.
    by rewrite bool_decide_eq_false_2.
Qed.

Lemma double_quotes_app s t :
  double_quotes (s ++ t) = double_quotes s ++ double_quotes t.
Proof. unfold double_quotes. apply bind_app. Qed.

Lemma double_quotes_cons c s :
  double_quotes (c :: s)
  = (if decide (c = DQUOTE) then [DQUOTE; DQUOTE] else [c]) ++ double_quotes s.
Proof. reflexivity. Qed.

Lemma double_quotes_none s : DQUOTE ∉ s -> double_quotes s = s.
Proof.
  induction s as [|c s IH]; [done|].
  rewrite not_elem_of_cons. intros [Hc Hs].
  rewrite double_quotes_cons, IH by done.
  destruct (decide (c = DQUOTE)); [congruence | done].
Qed.

Lemma double_quotes_length s :
  (length s <= length (double_quotes s) <= 2 * length s)%nat.
Proof.
  induction s as [|c s IH]; [simpl; lia|].
  rewrite double_quotes_cons, length_app.
  destruct (decide (c = DQUOTE)); simpl; lia.
Qed.

Lemma double_quotes_elem c s : c ∈ double_quotes s <-> c ∈ s.
Proof.
  induction s as [|x s IH]; [done|].
  rewrite double_quotes_cons, elem_of_app, elem_of_cons, IH.
  destruct (decide (x = DQUOTE)) as [->|Hx].
  - rewrite !elem_of_cons, elem_of_nil. tauto.
  - rewrite list_elem_of_singleton. tauto.
Qed.

Lemma quotes_none s : DQUOTE ∉ s -> quotes s = 0%nat.
Proof.
  unfold quotes. intros H. apply count_occ_not_In.
  by rewrite <- list_elem_of_In.
Qed.

Lemma quotes_split r1 r2 :
  DQUOTE ∉ r1 -> quotes (r1 ++ DQUOTE :: r2) = S (quotes r2).
Proof.
  intros H. unfold quotes. rewrite count_occ_app, count_occ_cons_eq by done.
  fold (quotes r1). rewrite quotes_none by done. done.
Qed.

(** The escaping loop, from any point of its run: [pre] is the part
    already rewritten, [rest] the part still to scan. *)
Lemma escape_quotes_spec fuel : forall pre rest,
  Z.of_nat (length pre) + 2 * Z.of_nat (length rest) + 2 < 2 ^ 31 ->
  escape_quotes fuel (pre ++ rest) (Z.of_nat (length pre))
  = if (quotes rest <? fuel)%nat then Ok (pre ++ double_quotes rest) else OutOfFuel.
Proof.
  induction fuel as [|fuel IH]; intros pre rest Hlen; [done|].
  cbn [escape_quotes]. cbv zeta.
  rewrite to_size_t_small by lia.
  unfold find_first_of. rewrite Nat2Z.id, find_from_app.
  destruct (find_from rest DQUOTE 0) as [k|] eqn:Hf; cbn [fmap option_fmap option_map].
  - destruct (find_from_Some _ _ _ Hf) as (r1 & r2 & -> & <- & Hr1).
    rewrite length_app in Hlen. cbn [length] in Hlen.
    rewrite to_int_small by lia.
    destruct (Z.geb_spec (Z.of_nat (length pre + length r1)) 0); [|lia].
    unfold insert_at. rewrite Nat2Z.id.
    replace (length pre + length r1)%nat with (length (pre ++ r1))
      by apply length_app.
    rewrite (assoc_L (++) pre r1), take_app_length, drop_app_length.
    replace (Z.of_nat (length (pre ++ r1)) + 2)
      with (Z.of_nat (length ((pre ++ r1) ++ [DQUOTE; DQUOTE]))).
    2:{ rewrite length_app. simpl. lia. }
    replace ((pre ++ r1) ++ DQUOTE :: DQUOTE :: r2)
      with (((pre ++ r1) ++ [DQUOTE; DQUOTE]) ++ r2)
      by (by rewrite <- (assoc_L (++))).
    rewrite IH.
    2:{ rewrite !length_app. cbn [length]. lia. }
    rewrite quotes_split by done.
    change (S (quotes r2) <? S fuel)%nat with (quotes r2 <? fuel)%nat.
    destruct (quotes r2 <? fuel)%nat; [|done].
    rewrite double_quotes_app, double_quotes_cons, (double_quotes_none r1) by done.
    rewrite decide_True by done.
    by rewrite <- !(assoc_L (++)).
  - rewrite to_int_npos. cbn. apply find_from_None in Hf.
    rewrite quotes_none, double_quotes_none by done. done.
Qed.

Lemma needs_quoting_double_quotes s :
  needs_quoting (double_quotes s) = needs_quoting s.
Proof.
  unfold needs_quoting. apply bool_decide_ext.
  by rewrite !double_quotes_elem.
Qed.

Lemma csvEscape_spec fuel s :
  2 * Z.of_nat (length s) + 2 < 2 ^ 31 ->
  csvEscape fuel s = if (quotes s <? fuel)%nat then Ok (escaped s) else OutOfFuel.
Proof.
  intros Hlen. unfold csvEscape.
  pose proof (escape_quotes_spec fuel [] s) as H. cbn [app length] in H.
  change (Z.of_nat 0) with 0 in H.
  rewrite H by lia. clear H.
  destruct (quotes s <? fuel)%nat; [|done].
  cbn [mbind outcome_bind]. 
  pose proof (double_quotes_length s) as Hd.
  rewrite !found_iff by lia.
  unfold escaped, needs_quoting.
  destruct (decide (COMMA ∈ s)) as [Hc|Hc], (decide (SPACE ∈ s)) as [Hs|Hs].
  all: rewrite ?(bool_decide_eq_true_2 (COMMA ∈ double_quotes s)) by (by apply double_quotes_elem).
  all: rewrite ?(bool_decide_eq_true_2 (SPACE ∈ double_quotes s)) by (by apply double_quotes_elem).
  all: rewrite ?(bool_decide_eq_false_2 (COMMA ∈ double_quotes s)) by (by rewrite double_quotes_elem).
  all: rewrite ?(bool_decide_eq_false_2 (SPACE ∈ double_quotes s)) by (by rewrite double_quotes_elem).
  all: cbn [orb].
  1-3: rewrite bool_decide_eq_true_2 by tauto; done.
  rewrite bool_decide_eq_false_2 by tauto. done.
Qed.

Lemma double_quotes_inj s1 : forall s2,
  double_quotes s1 = double_quotes s2 -> s1 = s2.
Proof.
  induction s1 as [|c1 s1 IH]; intros [|c2 s2].
  - done.
  - rewrite double_quotes_cons. destruct (decide (c2 = DQUOTE)); discriminate.
  - rewrite double_quotes_cons. destruct (decide (c1 = DQUOTE)); discriminate.
  - rewrite !double_quotes_cons.
    destruct (decide (c1 = DQUOTE)) as [->|H1], (decide (c2 = DQUOTE)) as [->|H2];
      cbn [app]; intros H.
    + injection H as H. f_equal. by apply IH.
    + injection H as H _. congruence.
    + injection H as H _. congruence.
    + injection H as -> H. f_equal. by apply IH.
Qed.

Lemma needs_quoting_true s : needs_quoting s = true <-> (COMMA ∈ s) \/ (SPACE ∈ s).
Proof. unfold needs_quoting. apply bool_decide_eq_true. Qed.

Lemma needs_quoting_false s : needs_quoting s = false <-> (COMMA ∉ s) /\ (SPACE ∉ s).
Proof. unfold needs_quoting. rewrite bool_decide_eq_false. tauto. Qed.

Lemma escaped_inj s1 s2 : escaped s1 = escaped s2 -> s1 = s2.
Proof.
  assert (Hmixed : forall a b, needs_quoting a = true -> needs_quoting b = false ->
            DQUOTE :: double_quotes a ++ [DQUOTE] <> double_quotes b).
  { intros a b Ha Hb E. apply needs_quoting_true in Ha. apply needs_quoting_false in Hb.
    assert (Hin : forall c, c ∈ a -> c ∈ b).
    { intros c Hc. apply double_quotes_elem. rewrite <- E.
      right. apply elem_of_app. left. by apply double_quotes_elem. }
    destruct Ha as [Ha|Ha]; apply Hin in Ha; tauto. }
  unfold escaped.
  destruct (needs_quoting s1) eqn:E1, (needs_quoting s2) eqn:E2; intros H.
  - injection H as H. apply app_inj_tail in H as [H _]. by apply double_quotes_inj.
  - by apply Hmixed in H.
  - symmetry in H. by apply Hmixed in H.
  - by apply double_quotes_inj.
Qed.

Lemma double_quotes_grows s :
  length (double_quotes s) = (length s + quotes s)%nat.
Proof.
  induction s as [|c s IH]; [done|].
  rewrite double_quotes_cons, length_app, IH. unfold quotes. cbn [count_occ length].
  destruct (decide (c = DQUOTE)) as [->|Hc].
  - destruct (ascii_dec DQUOTE DQUOTE); [|done]. cbn [length]. lia.
  - destruct (ascii_dec c DQUOTE); [done|]. cbn [length]. lia.
Qed.

Lemma escaped_length s :
  length (escaped s)
  = (length s + quotes s + if needs_quoting s then 2 else 0)%nat.
Proof.
  unfold escaped. destruct (needs_quoting s).
  - cbn [length]. rewrite length_app, double_quotes_grows. cbn [length]. lia.
  - rewrite double_quotes_grows. lia.
Qed.

Lemma quotes_zero s : quotes s = 0%nat <-> DQUOTE ∉ s.
Proof.
  unfold quotes. rewrite list_elem_of_In. symmetry. apply count_occ_not_In.
Qed.

Lemma escaped_fixed s :
  escaped s = s <-> (DQUOTE ∉ s) /\ (COMMA ∉ s) /\ (SPACE ∉ s).
Proof.
  split.
  - intros H. apply (f_equal length) in H. rewrite escaped_length in H.
    destruct (needs_quoting s) eqn:E; [lia|].
    apply needs_quoting_false in E. split; [|done].
    apply quotes_zero. lia.
  - intros (Hq & Hc & Hs). unfold escaped.
    rewrite (proj2 (needs_quoting_false s)) by done.
    by apply double_quotes_none.
Qed.

Lemma csvEscape_Ok fuel s t :
  2 * Z.of_nat (length s) + 2 < 2 ^ 31 ->
  csvEscape fuel s = Ok t -> t = escaped s /\ (quotes s < fuel)%nat.
Proof.
  intros Hlen. rewrite csvEscape_spec by done.
  destruct (Nat.ltb_spec (quotes s) fuel); [|done].
  intros [= <-]. done.
Qed.

Lemma pad_replicate {A} (x : A) k (row : list A) :
  Nat.iter k (fun r => r ++ [x]) row = row ++ replicate k x.
Proof.
  induction k as [|k IH]; cbn [Nat.iter nat_rect replicate].
  - by rewrite app_nil_r.
  - unfold Nat.iter in IH. rewrite IH, <- (assoc_L (++)). f_equal.
    change [x] with (replicate 1 x). rewrite <- replicate_add.
    by rewrite Nat.add_1_r.
Qed.

(** The row that [CsvRow::set] leaves, given the escaped field. *)
Lemma CsvRow_set_spec fuel row col data :
  2 * Z.of_nat (length data) + 2 < 2 ^ 31 ->
  (quotes data < fuel)%nat ->
  CsvRow_set fuel row (Some col) data
  = Ok (if order col <? Z.of_nat (length row)
        then <[Z.to_nat (order col) := escaped data]> row
        else row ++ replicate (Z.to_nat (order col) - length row) [] ++ [escaped data]).
Proof.
  intros Hlen Hfuel. unfold CsvRow_set.
  rewrite csvEscape_spec by done.
  rewrite (proj2 (Nat.ltb_lt _ _)) by done. cbn [mbind outcome_bind].
  destruct (order col <? Z.of_nat (length row)); [done|].
  by rewrite pad_replicate, <- (assoc_L (++)).
Qed.

Lemma fold_line row : forall line,
  fold_left (fun line str => (line ++ str) ++ [COMMA]) row line
  = line ++ mjoin ((fun str => str ++ [COMMA]) <$> row).
Proof.
  induction row as [|str row IH]; intros line; cbn [fold_left fmap list_fmap].
  - by rewrite app_nil_r.
  - rewrite IH. cbn [mjoin list_join]. by rewrite <- !(assoc_L (++)).
Qed.

Lemma join_commas_line str row :
  mjoin ((fun str => str ++ [COMMA]) <$> (str :: row))
  = join_commas (str :: row) ++ [COMMA].
Proof.
  revert str. induction row as [|str' row IH]; intros str.
  - cbn. by rewrite app_nil_r.
  - change (mjoin ((fun str => str ++ [COMMA]) <$> (str :: str' :: row)))
      with ((str ++ [COMMA]) ++ mjoin ((fun str => str ++ [COMMA]) <$> (str' :: row))).
    rewrite IH. cbn [join_commas]. by rewrite <- !(assoc_L (++)).
Qed.

Lemma add_all_snoc columns names name :
  add_all columns (names ++ [name])
  = add_all columns names
    ++ [{| header := name;
           order := wrap32 (Z.of_nat (length (add_all columns names))) |}].
Proof. unfold add_all. by rewrite fold_left_app. Qed.

Lemma add_all_length columns names :
  length (add_all columns names) = (length columns + length names)%nat.
Proof.
  induction names as [|name names IH] using rev_ind.
  - cbn. lia.
  - rewrite add_all_snoc, !length_app, IH. cbn. lia.
Qed.

Lemma add_all_lookup names : forall i col,
  add_all [] names !! i = Some col ->
  names !! i = Some (header col) /\ order col = wrap32 (Z.of_nat i).
Proof.
  induction names as [|name names IH] using rev_ind; intros i col.
  - done.
  - rewrite add_all_snoc. intros H.
    apply lookup_app_Some in H as [H|[Hge H]].
    + destruct (IH _ _ H) as [Hh Ho]. split; [|done].
      by apply lookup_app_l_Some.
    + rewrite add_all_length in *. cbn [length] in *.
      apply list_lookup_singleton_Some in H as [Hi <-].
      assert (i = length names) as -> by lia.
      cbn [header order]. split; [|done].
      by rewrite list_lookup_middle.
Qed.

(** [setHeader] over columns numbered [k], [k+1], ... on a row of at
    least [k] fields. *)
Lemma setHeader_from fuel names : forall (k : nat) columns row,
  Forall2 (fun col name => header col = name) columns names ->
  (forall i col, columns !! i = Some col -> order col = Z.of_nat (k + i)) ->
  Forall (fun name => 2 * Z.of_nat (length name) + 2 < 2 ^ 31
                      /\ (quotes name < fuel)%nat) names ->
  (k <= length row)%nat ->
  CsvColumns_setHeader fuel columns row
  = Ok (take k row ++ (escaped <$> names) ++ drop (k + length names) row).
Proof.
  induction names as [|name names IH]; intros k columns row Hcols Hord Hnames Hk.
  - apply Forall2_nil_inv_r in Hcols as ->. cbn [CsvColumns_setHeader fmap list_fmap length app].
    by rewrite Nat.add_0_r, take_drop.
  - apply Forall2_cons_inv_r in Hcols as (col & columns' & Hh & Hcols & ->).
    apply Forall_cons in Hnames as [[Hlen Hfuel] Hnames].
    cbn [CsvColumns_setHeader]. rewrite Hh.
    rewrite CsvRow_set_spec by done.
    pose proof (Hord 0%nat col eq_refl) as Ho. rewrite Nat.add_0_r in Ho.
    rewrite Ho, Nat2Z.id. cbn [mbind outcome_bind].
    set (row1 := if Z.of_nat k <? Z.of_nat (length row) then _ else _).
    assert (Hrow1 : row1 = take k row ++ escaped name :: drop (S k) row).
    { subst row1. destruct (Z.ltb_spec (Z.of_nat k) (Z.of_nat (length row))).
      - apply insert_take_drop. lia.
      - assert (k = length row) as -> by lia.
        rewrite Nat.sub_diag, firstn_all, drop_ge by lia. done. }
    rewrite (IH (S k) columns' row1); try done.
    + rewrite Hrow1. cbn [fmap list_fmap length].
      assert (Htk : length (take k row) = k) by (rewrite length_take; lia).
      rewrite (take_app_ge _ _ (S k)) by lia.
      rewrite Htk, Nat.sub_succ_l, Nat.sub_diag by lia. cbn [take].
      rewrite drop_app_ge by lia. rewrite Htk.
      replace (S k + length names - k)%nat with (S (length names)) by lia.
      cbn [drop]. rewrite drop_drop.
      rewrite <- !(assoc_L (++)). cbn [app].
      rewrite take_0. cbn [app].
      by replace (S k + length names)%nat with (k + S (length names))%nat by lia.
    + intros i c Hi. rewrite (Hord (S i) c Hi). f_equal. lia.
    + rewrite Hrow1, length_app, length_take. cbn [length]. lia.
Qed.

(** X13. [csvEscape] returns its argument with every double quote
    doubled and, when the argument holds a comma or a space, put
    between two double quotes; the loop ends within one turn for each
    double quote and one more.  The result is longer by the number of double
    quotes, and by two more when it is quoted.  (Strings shorter than
    2^30 - 1 characters, so that the [int] index does not overflow.) *)
Theorem csvEscape_doubles_and_wraps (fuel : nat) (s : list ascii) :
  2 * Z.of_nat (length s) + 2 < 2 ^ 31 ->
  (quotes s < fuel)%nat ->
  csvEscape fuel s = Ok (escaped s)
  /\ length (escaped s)
     = (length s + quotes s + if needs_quoting s then 2 else 0)%nat.
Proof.
  intros Hlen Hfuel. split; [|apply escaped_length].
  rewrite csvEscape_spec by done.
  by rewrite (proj2 (Nat.ltb_lt _ _)).
Qed.

Lemma csvEscape_doubles_and_wraps_witness :
  csvEscape 2 (DQUOTE :: field_a_b) = Ok (escaped (DQUOTE :: field_a_b))
  /\ length (escaped (DQUOTE :: field_a_b))
     = (length (DQUOTE :: field_a_b) + quotes (DQUOTE :: field_a_b)
        + if needs_quoting (DQUOTE :: field_a_b) then 2 else 0)%nat.
Proof.
  apply csvEscape_doubles_and_wraps.
  - vm_compute. reflexivity.
  - vm_compute. lia.
Defined.

(** X14. [csvEscape] returns a field unchanged exactly when the field
    holds no double quote, no comma and no space; a field with a line
    break or a tab but none of these three is returned as it is. *)
Theorem csvEscape_unchanged_iff (fuel : nat) (s : list ascii) :
  2 * Z.of_nat (length s) + 2 < 2 ^ 31 ->
  (0 < fuel)%nat ->
  csvEscape fuel s = Ok s <-> (DQUOTE ∉ s) /\ (COMMA ∉ s) /\ (SPACE ∉ s).
Proof.
  intros Hlen Hfuel. split.
  - intros H. apply csvEscape_Ok in H as [H _]; [|done].
    by apply escaped_fixed.
  - intros H. rewrite csvEscape_spec by done.
    rewrite (proj2 (quotes_zero s)) by tauto.
    rewrite (proj2 (Nat.ltb_lt _ _)) by done.
    f_equal. by apply escaped_fixed.
Qed.

Lemma csvEscape_unchanged_iff_witness :
  csvEscape 1 [NEWLINE; "a"%char] = Ok [NEWLINE; "a"%char]
  <-> (DQUOTE ∉ [NEWLINE; "a"%char]) /\ (COMMA ∉ [NEWLINE; "a"%char])
      /\ (SPACE ∉ [NEWLINE; "a"%char]).
Proof.
  apply csvEscape_unchanged_iff.
  - vm_compute. reflexivity.
  - lia.
Defined.

(** X15. [csvEscape] is injective: two fields with the same escaped
    form are the same field. *)
Theorem csvEscape_injective (fuel1 fuel2 : nat) (s1 s2 t : list ascii) :
  2 * Z.of_nat (length s1) + 2 < 2 ^ 31 ->
  2 * Z.of_nat (length s2) + 2 < 2 ^ 31 ->
  csvEscape fuel1 s1 = Ok t ->
  csvEscape fuel2 s2 = Ok t ->
  s1 = s2.
Proof.
  intros Hlen1 Hlen2 H1 H2.
  apply csvEscape_Ok in H1 as [H1 _]; [|done].
  apply csvEscape_Ok in H2 as [H2 _]; [|done].
  apply escaped_inj. congruence.
Qed.

Lemma csvEscape_injective_witness : field_a_b = field_a_b.
Proof.
  apply (csvEscape_injective 1 4 field_a_b field_a_b (escaped field_a_b)).
  - vm_compute. reflexivity.
  - vm_compute. reflexivity.
  - reflexivity.
  - reflexivity.
Defined.

(** X16. After [CsvRow::set] on a column, [getValue] of that column
    is the escaped field, [getValue] of every column of another order
    is what it was, and the row has grown to reach the column's order
    if it was shorter (the fields in between are empty). *)
Theorem CsvRow_set_then_getValue (fuel : nat) (row : list (list ascii))
    (col : CsvColumn) (data : list ascii) :
  0 <= order col ->
  2 * Z.of_nat (length data) + 2 < 2 ^ 31 ->
  (quotes data < fuel)%nat ->
  exists row',
    CsvRow_set fuel row (Some col) data = Ok row'
    /\ CsvRow_getValue row' (Some col) = Some (escaped data)
    /\ (forall col2, 0 <= order col2 -> order col2 <> order col ->
          CsvRow_getValue row' (Some col2) = CsvRow_getValue row (Some col2))
    /\ length row' = (length row `max` S (Z.to_nat (order col)))%nat.
Proof.
  intros Ho Hlen Hfuel. eexists. split; [by apply CsvRow_set_spec|].
  unfold CsvRow_getValue.
  destruct (Z.ltb_spec (order col) (Z.of_nat (length row))) as [Hin|Hout].
  - rewrite length_insert. rewrite (proj2 (Z.ltb_lt _ _)) by done.
    split_and!.
    + rewrite list_lookup_insert_eq by lia. done.
    + intros col2 Ho2 Hne. rewrite list_lookup_insert_ne by lia. done.
    + lia.
  - set (k := (Z.to_nat (order col) - length row)%nat).
    assert (Hl : length (row ++ replicate k [] ++ [escaped data])
                 = S (Z.to_nat (order col))).
    { rewrite !length_app, length_replicate. cbn [length]. lia. }
    rewrite Hl. split_and!.
    + rewrite (proj2 (Z.ltb_lt _ _)) by lia.
      rewrite (assoc_L (++)), lookup_app_r
        by (rewrite length_app, length_replicate; lia).
      rewrite length_app, length_replicate.
      replace (Z.to_nat (order col) - (length row + k))%nat with 0%nat by lia.
      done.
    + intros col2 Ho2 Hne. f_equal.
      destruct (Z.ltb_spec (order col2) (Z.of_nat (length row))) as [Hin2|Hout2].
      * rewrite (proj2 (Z.ltb_lt _ _)) by lia.
        rewrite lookup_app_l by lia. done.
      * destruct (Z.ltb_spec (order col2) (Z.of_nat (S (Z.to_nat (order col)))));
          [|done].
        rewrite lookup_app_r by lia.
        rewrite lookup_app_l by (rewrite length_replicate; lia).
        rewrite lookup_replicate_2 by lia. done.
    + lia.
Qed.

Lemma CsvRow_set_then_getValue_witness :
  exists row',
    CsvRow_set 1 [field_plain] (Some column_3) field_a_b = Ok row'
    /\ CsvRow_getValue row' (Some column_3) = Some (escaped field_a_b)
    /\ (forall col2, 0 <= order col2 -> order col2 <> order column_3 ->
          CsvRow_getValue row' (Some col2)
          = CsvRow_getValue [field_plain] (Some col2))
    /\ length row' = (length [field_plain] `max` S (Z.to_nat (order column_3)))%nat.
Proof.
  apply CsvRow_set_then_getValue.
  - vm_compute. discriminate.
  - vm_compute. reflexivity.
  - vm_compute. lia.
Defined.

(** X17. Columns added one after the other to an empty [CsvColumns]
    carry the given headers and the orders 0, 1, 2, ... (fewer than
    2^32 columns, the range of [unsigned int]). *)
Theorem add_numbers_columns (names : list (list ascii)) :
  Z.of_nat (length names) <= 2 ^ 32 ->
  length (add_all [] names) = length names
  /\ forall i col, add_all [] names !! i = Some col ->
       names !! i = Some (header col) /\ order col = Z.of_nat i.
Proof.
  intros Hn. split; [by rewrite add_all_length|].
  intros i col H. destruct (add_all_lookup _ _ _ H) as [Hh Ho].
  split; [done|]. rewrite Ho.
  apply lookup_lt_Some in Hh. unfold wrap32. apply Z.mod_small. lia.
Qed.

Lemma add_numbers_columns_witness :
  length (add_all [] [field_plain; field_a_b]) = length [field_plain; field_a_b]
  /\ forall i col, add_all [] [field_plain; field_a_b] !! i = Some col ->
       [field_plain; field_a_b] !! i = Some (header col) /\ order col = Z.of_nat i.
Proof.
  apply add_numbers_columns. vm_compute. discriminate.
Defined.

(** X18. [setHeader] over the columns added to an empty [CsvColumns]
    overwrites the first fields of the row with the escaped headers,
    in the order the columns were added, and keeps the fields behind
    them; on an empty row it yields exactly the escaped headers. *)
Theorem setHeader_writes_escaped_headers (fuel : nat) (names row : list (list ascii)) :
  Z.of_nat (length names) <= 2 ^ 32 ->
  Forall (fun name => 2 * Z.of_nat (length name) + 2 < 2 ^ 31
                      /\ (quotes name < fuel)%nat) names ->
  CsvColumns_setHeader fuel (add_all [] names) row
  = Ok ((escaped <$> names) ++ drop (length names) row).
Proof.
  intros Hn Hnames.
  rewrite (setHeader_from fuel names 0 (add_all [] names) row); try done.
  - apply Forall2_same_length_lookup_2; [by rewrite add_all_length|].
    intros i col name Hc Hname.
    destruct (add_all_lookup _ _ _ Hc) as [Hh _]. congruence.
  - intros i col Hc. destruct (add_all_lookup _ _ _ Hc) as [Hh ->].
    apply lookup_lt_Some in Hh. unfold wrap32. cbn [Nat.add].
    apply Z.mod_small. lia.
  - lia.
Qed.

Lemma setHeader_writes_escaped_headers_witness :
  CsvColumns_setHeader 3 (add_all [] [field_quoted; field_a_b]) [field_plain; []; field_plain]
  = Ok ((escaped <$> [field_quoted; field_a_b])
        ++ drop (length [field_quoted; field_a_b]) [field_plain; []; field_plain]).
Proof.
  apply setHeader_writes_escaped_headers.
  - vm_compute. discriminate.
  - repeat (apply List.Forall_cons;
              [split; [vm_compute; reflexivity | vm_compute; lia]|]).
    apply List.Forall_nil.
Defined.

(** X19. [toString] of a row with at least one field is the fields
    joined by commas, followed by a line break; on a row without
    fields it removes the last character of an empty string, which is
    undefined. *)
Theorem toString_joins_fields (row : list (list ascii)) :
  CsvRow_toString row
  = match row with
    | [] => None
    | _ :: _ => Some (join_commas row ++ [NEWLINE])
    end.
Proof.
  unfold CsvRow_toString. cbv zeta. rewrite fold_line. cbn [app].
  destruct row as [|str row]; [done|].
  rewrite join_commas_line.
  destruct (join_commas (str :: row) ++ [COMMA]) eqn:E.
  - by apply app_nil in E as [_ [=]].
  - rewrite <- E. by rewrite removelast_last.
Qed.
